(** * Bulk song import of worshipready-supabase-api (src/server.js, POST /songs/bulk)

    Shallow embedding of the bulk import handler, lines 203-325 of
    src/server.js, together with the parts of the JavaScript runtime and of
    the string-similarity package it relies on:
    - JSON values as produced by body-parser, with JavaScript truthiness;
    - JavaScript numbers (NaN, infinities and finite values, finite values
      kept exact as [Q]: floating-point rounding is not modelled);
    - [parseFloat], [Math.min], [Math.max] and [JSON.parse];
    - [compareTwoStrings] of string-similarity 4.x (Dice coefficient on
      bigrams), on ASCII strings;
    - the Supabase client as two oracles: the snapshot select and the
      per-chunk insert, each call recorded in a trace of events.
    The handler runs in a small exception-and-trace monad: a JavaScript
    exception thrown inside the [try] block becomes the 500 response of
    the [catch] handler. *)

From Stdlib Require Import QArith Qminmax Ascii Lqa.
From stdpp Require Import base list sorting strings sets.

Open Scope list_scope.
Set Warnings "-register-all".

(* ------------------------------------------------------------------ *)
(** ** JavaScript values *)

Module JS.

(** JSON values (what [bodyParser.json] and [JSON.parse] produce). Objects
    are association lists in property order with unique keys. *)
Inductive json : Type :=
| JNull
| JBool (b : bool)
| JNum (q : Q)
| JStr (s : string)
| JArr (l : list json)
| JObj (kvs : list (string * json)).

(** [undefined] is [None]: a property read of a missing key. *)
Definition value := option json.

Definition truthy_json (v : json) : bool :=
  match v with
  | JNull => false
  | JBool b => b
  | JNum q => negb (Qeq_bool q 0)
  | JStr s => negb (String.eqb s "")
  | JArr _ | JObj _ => true
  end.

Definition truthy (v : value) : bool :=
  match v with None => false | Some j => truthy_json j end.

(** [a || b] *)
Definition or_else (a b : value) : value := if truthy a then a else b.

(** [a ?? b] *)
Definition nullish_else (a b : value) : value :=
  match a with None | Some JNull => b | _ => a end.

Fixpoint assoc (kvs : list (string * json)) (k : string) : value :=
  match kvs with
  | [] => None
  | (k', v) :: r => if String.eqb k k' then Some v else assoc r k
  end.

(** Exceptions the handler can meet inside its [try] block. *)
Inductive exn : Type :=
| TypeError
| SyntaxError.

Definition exn_message (e : exn) : string :=
  match e with
  | TypeError => "TypeError"
  | SyntaxError => "SyntaxError"
  end.

(** [v.k]: reading a property of [null] throws, a primitive or an array has
    none of the keys the handler reads. *)
Definition prop (v : json) (k : string) : exn + value :=
  match v with
  | JNull => inl TypeError
  | JObj kvs => inr (assoc kvs k)
  | _ => inr None
  end.

(** JavaScript numbers. *)
Inductive jsnum : Type :=
| JNaN
| JNegInf
| JPosInf
| JFin (q : Q).

(** [Math.min(a, b)] and [Math.max(a, b)]. *)
Definition js_min (a b : jsnum) : jsnum :=
  match a, b with
  | JNaN, _ | _, JNaN => JNaN
  | JNegInf, _ | _, JNegInf => JNegInf
  | JPosInf, x | x, JPosInf => x
  | JFin x, JFin y => JFin (Qmin x y)
  end.

Definition js_max (a b : jsnum) : jsnum :=
  match a, b with
  | JNaN, _ | _, JNaN => JNaN
  | JPosInf, _ | _, JPosInf => JPosInf
  | JNegInf, x | x, JNegInf => x
  | JFin x, JFin y => JFin (Qmax x y)
  end.

(** [x >= t] for a finite [x]. *)
Definition js_ge (x : Q) (t : jsnum) : bool :=
  match t with
  | JNaN => false
  | JNegInf => true
  | JPosInf => false
  | JFin q => Qle_bool q x
  end.

(** *** parseFloat (ECMA-262, 19.2.4) *)

Definition is_digit (c : ascii) : bool :=
  let n := nat_of_ascii c in (48 <=? n) && (n <=? 57).

Definition digit_val (c : ascii) : Z := Z.of_nat (nat_of_ascii c - 48).

(** StrWhiteSpaceChar restricted to ASCII: tab, LF, VT, FF, CR, space. *)
Definition is_str_ws (c : ascii) : bool :=
  let n := nat_of_ascii c in ((9 <=? n) && (n <=? 13)) || (n =? 32).

Fixpoint trim_start (s : string) : string :=
  match s with
  | String c r => if is_str_ws c then trim_start r else s
  | EmptyString => s
  end.

(** Longest prefix of decimal digits, and the rest. *)
Fixpoint span_digits (s : string) : list ascii * string :=
  match s with
  | String c r =>
      if is_digit c then let '(ds, rest) := span_digits r in (c :: ds, rest)
      else ([], s)
  | EmptyString => ([], s)
  end.

Definition digits_value (ds : list ascii) : Z :=
  fold_left (fun acc c => 10 * acc + digit_val c)%Z ds 0%Z.

Fixpoint starts_with (p s : string) : bool :=
  match p, s with
  | EmptyString, _ => true
  | String a p', String b s' => Ascii.eqb a b && starts_with p' s'
  | _, _ => false
  end.

(** The ExponentPart of a StrUnsignedDecimalLiteral, when present. *)
Definition exponent_part (s : string) : Z :=
  match s with
  | String e r =>
      if Ascii.eqb e "e" || Ascii.eqb e "E" then
        let '(sg, r') :=
          match r with
          | String "-" r' => ((-1)%Z, r')
          | String "+" r' => (1%Z, r')
          | _ => (1%Z, r)
          end in
        let '(ed, _) := span_digits r' in
        match ed with [] => 0%Z | _ => (sg * digits_value ed)%Z end
      else 0%Z
  | EmptyString => 0%Z
  end.

Definition parseFloat (s : string) : jsnum :=
  let t := trim_start s in
  let '(neg, t') :=
    match t with
    | String "-" r => (true, r)
    | String "+" r => (false, r)
    | _ => (false, t)
    end in
  if starts_with "Infinity" t' then (if neg then JNegInf else JPosInf)
  else
    let '(ids, r1) := span_digits t' in
    let '(fds, r2) :=
      match r1 with
      | String "." r => span_digits r
      | _ => ([], r1)
      end in
    match ids ++ fds with
    | [] => JNaN
    | ds =>
        let m := digits_value ds in
        let e := (exponent_part r2 - Z.of_nat (length fds))%Z in
        let q := (inject_Z m * Qpower (inject_Z 10) e)%Q in
        JFin (if neg then Qopp q else q)
    end.

(** *** JSON.parse (ECMA-404 grammar)

    Recursive descent with fuel; [JSON_parse] gives each nested call enough
    fuel (every call consumes input or descends one level). [\uXXXX]
    escapes outside ASCII become ["?"] since strings are ASCII here. *)

Definition is_json_ws (c : ascii) : bool :=
  let n := nat_of_ascii c in (n =? 9) || (n =? 10) || (n =? 13) || (n =? 32).

Fixpoint skip_ws (s : string) : string :=
  match s with
  | String c r => if is_json_ws c then skip_ws r else s
  | EmptyString => s
  end.

Definition hex_val (c : ascii) : option nat :=
  let n := nat_of_ascii c in
  if (48 <=? n) && (n <=? 57) then Some (n - 48)
  else if (65 <=? n) && (n <=? 70) then Some (n - 55)
  else if (97 <=? n) && (n <=? 102) then Some (n - 87)
  else None.

(** The double-quote character, ASCII 34 (bits from the lowest). *)
Abbreviation DQ := (Ascii.Ascii false true false false false true false false).

(** The characters of a string literal after its opening quote. *)
Fixpoint parse_chars (s : string) : option (string * string) :=
  match s with
  | EmptyString => None
  | String c r =>
      if Ascii.eqb c DQ then Some (EmptyString, r)
      else if nat_of_ascii c <? 32 then None
      else if Ascii.eqb c "\" then
        match r with
        | String e r' =>
            let simple (x : ascii) :=
              match parse_chars r' with
              | Some (str, rest) => Some (String x str, rest)
              | None => None
              end in
            if Ascii.eqb e DQ then simple DQ
            else if Ascii.eqb e "\" then simple "\"%char
            else if Ascii.eqb e "/" then simple "/"%char
            else if Ascii.eqb e "b" then simple (ascii_of_nat 8)
            else if Ascii.eqb e "f" then simple (ascii_of_nat 12)
            else if Ascii.eqb e "n" then simple (ascii_of_nat 10)
            else if Ascii.eqb e "r" then simple (ascii_of_nat 13)
            else if Ascii.eqb e "t" then simple (ascii_of_nat 9)
            else if Ascii.eqb e "u" then
              match r' with
              | String h1 (String h2 (String h3 (String h4 r''))) =>
                  match hex_val h1, hex_val h2, hex_val h3, hex_val h4 with
                  | Some a, Some b, Some c', Some d =>
                      let code := ((a * 16 + b) * 16 + c') * 16 + d in
                      let x := if code <? 128 then ascii_of_nat code else "?"%char in
                      match parse_chars r'' with
                      | Some (str, rest) => Some (String x str, rest)
                      | None => None
                      end
                  | _, _, _, _ => None
                  end
              | _ => None
              end
            else None
        | EmptyString => None
        end
      else
        match parse_chars r with
        | Some (str, rest) => Some (String c str, rest)
        | None => None
        end
  end.

(** A JSON number: [-? (0 | [1-9][0-9]* ) (. [0-9]+)? ([eE] [+-]? [0-9]+)?]. *)
Definition parse_number (s : string) : option (json * string) :=
  let '(neg, s1) := match s with String "-" r => (true, r) | _ => (false, s) end in
  let '(ids, r1) := span_digits s1 in
  let int_ok :=
    match ids with
    | [] => false
    | [_] => true
    | c :: _ => negb (Ascii.eqb c "0")
    end in
  if negb int_ok then None else
  let frac :=
    match r1 with
    | String "." r =>
        let '(fds, r2) := span_digits r in
        match fds with [] => None | _ => Some (fds, r2) end
    | _ => Some ([], r1)
    end in
  match frac with
  | None => None
  | Some (fds, r2) =>
      let ex :=
        match r2 with
        | String e r =>
            if Ascii.eqb e "e" || Ascii.eqb e "E" then
              let '(sg, r') :=
                match r with
                | String "-" r' => ((-1)%Z, r')
                | String "+" r' => (1%Z, r')
                | _ => (1%Z, r)
                end in
              let '(eds, r3) := span_digits r' in
              match eds with [] => None | _ => Some ((sg * digits_value eds)%Z, r3) end
            else Some (0%Z, r2)
        | EmptyString => Some (0%Z, r2)
        end in
      match ex with
      | None => None
      | Some (e, rest) =>
          let q := (inject_Z (digits_value (ids ++ fds))
                    * Qpower (inject_Z 10) (e - Z.of_nat (length fds)))%Q in
          Some (JNum (if neg then Qopp q else q), rest)
      end
  end.

(** Property definition during parsing: a repeated key keeps its first
    position and takes the last value. *)
Fixpoint assoc_set (kvs : list (string * json)) (k : string) (v : json)
  : list (string * json) :=
  match kvs with
  | [] => [(k, v)]
  | (k', v') :: r =>
      if String.eqb k k' then (k', v) :: r else (k', v') :: assoc_set r k v
  end.

Fixpoint parse_value (fuel : nat) (s : string) : option (json * string) :=
  match fuel with
  | O => None
  | S f =>
      let s := skip_ws s in
      if starts_with "null" s then Some (JNull, String.substring 4 (String.length s) s)
      else if starts_with "true" s then Some (JBool true, String.substring 4 (String.length s) s)
      else if starts_with "false" s then Some (JBool false, String.substring 5 (String.length s) s)
      else
        match s with
        | String DQ r =>
            match parse_chars r with
            | Some (str, rest) => Some (JStr str, rest)
            | None => None
            end
        | String "[" r =>
            match skip_ws r with
            | String "]" r' => Some (JArr [], r')
            | _ =>
                match parse_elems f r with
                | Some (l, rest) => Some (JArr l, rest)
                | None => None
                end
            end
        | String "{" r =>
            match skip_ws r with
            | String "}" r' => Some (JObj [], r')
            | _ =>
                match parse_members f [] r with
                | Some (kvs, rest) => Some (JObj kvs, rest)
                | None => None
                end
            end
        | _ => parse_number s
        end
  end
(** [value ( , value )* ]] *)
with parse_elems (fuel : nat) (s : string) : option (list json * string) :=
  match fuel with
  | O => None
  | S f =>
      match parse_value f s with
      | Some (v, r) =>
          match skip_ws r with
          | String "," r' =>
              match parse_elems f r' with
              | Some (l, rest) => Some (v :: l, rest)
              | None => None
              end
          | String "]" r' => Some ([v], r')
          | _ => None
          end
      | None => None
      end
  end
(** [string : value ( , string : value )* }] *)
with parse_members (fuel : nat) (acc : list (string * json)) (s : string)
  : option (list (string * json) * string) :=
  match fuel with
  | O => None
  | S f =>
      match skip_ws s with
      | String DQ r =>
          match parse_chars r with
          | Some (k, r1) =>
              match skip_ws r1 with
              | String ":" r2 =>
                  match parse_value f r2 with
                  | Some (v, r3) =>
                      let acc' := assoc_set acc k v in
                      match skip_ws r3 with
                      | String "," r4 => parse_members f acc' r4
                      | String "}" r4 => Some (acc', r4)
                      | _ => None
                      end
                  | None => None
                  end
              | _ => None
              end
          | None => None
          end
      | _ => None
      end
  end.

(** [JSON.parse(s)]: [None] is the SyntaxError it throws. *)
Definition JSON_parse (s : string) : option json :=
  match parse_value (2 * String.length s + 2) s with
  | Some (v, rest) => if String.eqb (skip_ws rest) "" then Some v else None
  | None => None
  end.

End JS.

Import JS.

(* ------------------------------------------------------------------ *)
(** ** string-similarity: compareTwoStrings *)

Module StringSimilarity.

(** [s.replace(/\s+/g, '')] on ASCII strings. *)
Fixpoint remove_ws (s : string) : string :=
  match s with
  | String c r => if is_str_ws c then remove_ws r else String c (remove_ws r)
  | EmptyString => EmptyString
  end.

(** [Map.get] / [Map.set] on the bigram counts. *)
Fixpoint map_get (m : list (string * nat)) (k : string) : option nat :=
  match m with
  | [] => None
  | (k', n) :: r => if String.eqb k k' then Some n else map_get r k
  end.

Fixpoint map_set (m : list (string * nat)) (k : string) (n : nat)
  : list (string * nat) :=
  match m with
  | [] => [(k, n)]
  | (k', n') :: r => if String.eqb k k' then (k', n) :: r else (k', n') :: map_set r k n
  end.

(** [for (i = 0; i < first.length - 1; i++)] over [first.substring(i, i + 2)]. *)
Fixpoint bigrams (s : string) : list string :=
  match s with
  | String a (String b r as t) => String a (String b EmptyString) :: bigrams t
  | _ => []
  end.

Definition count_bigrams (first : string) : list (string * nat) :=
  fold_left (fun m bg =>
    let count := match map_get m bg with Some n => n + 1 | None => 1 end in
    map_set m bg count) (bigrams first) [].

(** The second loop: [(map, intersectionSize)]. *)
Definition intersect (m : list (string * nat)) (second : string) : list (string * nat) * nat :=
  fold_left (fun '(m, size) bg =>
    let count := match map_get m bg with Some n => n | None => 0 end in
    if 0 <? count then (map_set m bg (count - 1), S size) else (m, size))
    (bigrams second) (m, 0).

Definition compareTwoStrings (first second : string) : Q :=
  let first := remove_ws first in
  let second := remove_ws second in
  if String.eqb first second then 1%Q
  else if (String.length first <? 2) || (String.length second <? 2) then 0%Q
  else
    let intersectionSize := snd (intersect (count_bigrams first) second) in
    (inject_Z (2 * Z.of_nat intersectionSize)
     / inject_Z (Z.of_nat (String.length first + String.length second - 2)))%Q.

End StringSimilarity.

Import StringSimilarity.

(* ------------------------------------------------------------------ *)
(** ** Query controls (server.js lines 220-222) *)

(** [req.query]: absent parameters are [None]. *)
Record query := mkQuery {
  q_allowSimilar : option string;
  q_similarity : option string
}.

(** [(req.query.allowSimilar ?? "true") === "true"] *)
Definition allowSimilar_of (q : query) : bool :=
  String.eqb (default "true" (q_allowSimilar q)) "true".

(** [Math.max(0, Math.min(1, parseFloat(req.query.similarity ?? "0.8")))] *)
Definition similarity_of (q : query) : jsnum :=
  js_max (JFin 0) (js_min (JFin 1) (parseFloat (default "0.8" (q_similarity q)))).

(* ------------------------------------------------------------------ *)
(** ** Effects: exceptions, and the trace of database calls *)

(** A computation that may throw a JavaScript exception: [exn + A]. *)
Abbreviation ok a := (@inr exn _ a) (only parsing).

Definition res_bind {A B} (m : exn + A) (f : A → exn + B) : exn + B :=
  match m with inl e => inl e | inr a => f a end.

Notation "'let*' x ':=' m 'in' k" := (res_bind m (λ x, k))
  (at level 200, x binder, m at level 100, k at level 200).
Notation "'let*' ' p ':=' m 'in' k" := (res_bind m (λ x, match x with p => k end))
  (at level 200, p pattern, m at level 100, k at level 200).

(** The row inserted for an accepted record (server.js lines 260-268). *)
Record row := mkRow {
  row_song_name : json;
  row_main_stanza : json;
  row_stanzas : json;
  row_created_at : json;
  row_last_updated_at : json;
  row_created_by : json;
  row_last_updated_by : json
}.

(** A row returned by [.select("song_id, song_name")] after an insert. *)
Record drow := mkDrow {
  d_song_id : Z;
  d_song_name : string
}.

(** Calls to the Supabase client, in the order they are issued. *)
Inductive event : Type :=
| EvSelectSongs
| EvInsertSongs (off : nat) (rows : list row).

(** Exceptions and an append-only trace of database calls. *)
Definition M (A : Type) : Type := list event → (exn + A) * list event.

Definition M_ret {A} (a : A) : M A := λ tr, (ok a, tr).

Definition M_bind {A B} (m : M A) (f : A → M B) : M B :=
  λ tr,
    match m tr with
    | (inl e, tr') => (inl e, tr')
    | (inr a, tr') => f a tr'
    end.

Notation "'let!' x ':=' m 'in' k" := (M_bind m (λ x, k))
  (at level 200, x binder, m at level 100, k at level 200).
Notation "'let!' ' p ':=' m 'in' k" := (M_bind m (λ x, match x with p => k end))
  (at level 200, p pattern, m at level 100, k at level 200).

Definition emit (ev : event) : M unit := λ tr, (ok tt, tr ++ [ev]).

Definition lift {A} (r : exn + A) : M A := λ tr, (r, tr).

(* ------------------------------------------------------------------ *)
(** ** Outcome records *)

Inductive okind : Type :=
| OInvalid (reason : string)
| OSkipped (conflictWith : string) (similarityThreshold : jsnum)
| OCreated (song_id : Z)
| OFailed (reason : string).

Record outcome := mkOutcome {
  o_index : nat;
  o_song_name : value;
  o_kind : okind
}.

Definition status_of (o : outcome) : string :=
  match o_kind o with
  | OInvalid _ => "invalid"
  | OSkipped _ _ => "skipped_conflict"
  | OCreated _ => "created"
  | OFailed _ => "failed"
  end.

Definition has_status (st : string) (o : outcome) : bool := String.eqb (status_of o) st.

(* ------------------------------------------------------------------ *)
(** ** The record scan (server.js lines 227-272) *)

(** [typeof v === "string" ? JSON.parse(v) : v] *)
Definition asObj (v : json) : exn + json :=
  match v with
  | JStr s => match JSON_parse s with Some j => ok j | None => inl SyntaxError end
  | _ => ok v
  end.

(** [stringSimilarity.compareTwoStrings(a, b)]: [a.replace] or [b.replace]
    throws a TypeError when an argument is not a string. *)
Definition compare_js (a b : json) : exn + Q :=
  match a, b with
  | JStr x, JStr y => ok (compareTwoStrings x y)
  | _, _ => inl TypeError
  end.

(** [xs.some(p)] with a predicate that may throw. *)
Fixpoint some_js {A} (p : A → exn + bool) (xs : list A) : exn + bool :=
  match xs with
  | [] => ok false
  | x :: r => let* b := p x in if b then ok true else some_js p r
  end.

(** [v || d] where [d] is a truthy default. *)
Definition or_default (v : value) (d : json) : json :=
  match v with Some j => if truthy_json j then j else d | None => d end.

Record scan_state := mkScan {
  results : list outcome;
  toInsert : list (nat * row);
  acceptedNames : list json
}.

Definition empty_scan : scan_state := mkScan [] [] [].

(** Lines 229-231: [song_name], [main_stanza] and [stanzas] of a raw record. *)
Definition read_fields (raw : json) : exn + (value * value * value) :=
  let* sn1 := prop raw "song_name" in
  let* song_name := (if truthy sn1 then ok sn1 else prop raw "songName") in
  let* ms1 := prop raw "main_stanza" in
  let* main_stanza := (match ms1 with None | Some JNull => prop raw "mainStanza" | _ => ok ms1 end) in
  let* stanzas := prop raw "stanzas" in
  ok (song_name, main_stanza, stanzas).

(** Line 233: [None] when [!song_name || !main_stanza || !stanzas]. *)
Definition validate (song_name main_stanza stanzas : value) : option (json * json * json) :=
  match song_name, main_stanza, stanzas with
  | Some a, Some b, Some c =>
      if truthy_json a && truthy_json b && truthy_json c then Some (a, b, c) else None
  | _, _, _ => None
  end.

(** Lines 238-247. *)
Definition blocked (allowSimilar : bool) (similarity : jsnum)
    (existingNames : list string) (acceptedNames : list json) (song_name : json)
    : exn + bool :=
  if negb allowSimilar then
    let* conflictExisting :=
      some_js (λ n, let* s := compare_js song_name (JStr n) in ok (js_ge s similarity))
        existingNames in
    let* conflictInPayload :=
      some_js (λ n, let* s := compare_js song_name n in ok (js_ge s similarity))
        acceptedNames in
    ok (conflictExisting || conflictInPayload)
  else ok false.

(** Lines 260-268. *)
Definition build_row (now : string) (raw : json) (song_name main_stanza stanzas : json)
    : exn + row :=
  let* m := asObj main_stanza in
  let* s := asObj stanzas in
  let* created_at := prop raw "created_at" in
  let* last_updated_at := prop raw "last_updated_at" in
  let* created_by := prop raw "created_by" in
  let* last_updated_by := prop raw "last_updated_by" in
  ok (mkRow song_name m s
         (or_default created_at (JStr now))
         (or_default last_updated_at (JStr now))
         (or_default created_by (JStr "System"))
         (match last_updated_by with
          | Some j => if truthy_json j then j else JStr ""
          | None => JStr "" end)).

(** One iteration of the loop at line 227. *)
Definition scan_step (allowSimilar : bool) (similarity : jsnum)
    (existingNames : list string) (now : string)
    (st : scan_state) (i : nat) (raw : json) : exn + scan_state :=
  let* '(song_name, main_stanza, stanzas) := read_fields raw in
  match validate song_name main_stanza stanzas with
  | None =>
      ok (mkScan (results st ++ [mkOutcome i song_name (OInvalid "Missing fields")])
                  (toInsert st) (acceptedNames st))
  | Some (sn, ms, stz) =>
      let* blockedBySimilarity := blocked allowSimilar similarity existingNames (acceptedNames st) sn in
      if blockedBySimilarity then
        ok (mkScan (results st ++ [mkOutcome i (Some sn) (OSkipped "similarity" similarity)])
                    (toInsert st) (acceptedNames st))
      else
        let* r := build_row now raw sn ms stz in
        ok (mkScan (results st) (toInsert st ++ [(i, r)]) (acceptedNames st ++ [sn]))
  end.

Fixpoint scan_from (allowSimilar : bool) (similarity : jsnum)
    (existingNames : list string) (now : string)
    (i : nat) (raws : list json) (st : scan_state) : exn + scan_state :=
  match raws with
  | [] => ok st
  | raw :: rest =>
      let* st' := scan_step allowSimilar similarity existingNames now st i raw in
      scan_from allowSimilar similarity existingNames now (S i) rest st'
  end.

(* ------------------------------------------------------------------ *)
(** ** The chunked insert (server.js lines 274-306) *)

Definition BATCH : nat := 500.

(** The insert capability: [db_insert off rows] is the answer to the
    insert of the chunk starting at [off]: an error message or the
    returned rows. *)
Definition insert_oracle : Type := nat → list row → string + list drow.

Definition failed_outcome (msg : string) (c : nat * row) : outcome :=
  mkOutcome c.1 (Some (row_song_name c.2)) (OFailed msg).

(** Lines 295-304: [chunk[k]] is [undefined] past the chunk, and
    [undefined.index] throws. *)
Definition created_outcome (c : nat * row) (d : drow) : outcome :=
  mkOutcome c.1 (Some (JStr (d_song_name d))) (OCreated (d_song_id d)).

Fixpoint created_outcomes (chunk : list (nat * row)) (data : list drow)
    : exn + list outcome :=
  match data with
  | [] => ok []
  | d :: ds =>
      match chunk with
      | [] => inl TypeError
      | c :: cs =>
          let* rest := created_outcomes cs ds in
          ok (created_outcome c d :: rest)
      end
  end.

(** [for (off = 0; off < toInsert.length; off += BATCH)], with fuel. *)
Fixpoint insert_chunks (db_insert : insert_oracle) (toInsert : list (nat * row))
    (fuel off : nat) (results : list outcome) (createdCount : nat)
    : M (list outcome * nat) :=
  match fuel with
  | O => M_ret (results, createdCount)
  | S fuel' =>
      if off <? length toInsert then
        let chunk := take BATCH (drop off toInsert) in
        let! _ := emit (EvInsertSongs off (map snd chunk)) in
        match db_insert off (map snd chunk) with
        | inl msg =>
            insert_chunks db_insert toInsert fuel' (off + BATCH)
              (results ++ map (failed_outcome msg) chunk) createdCount
        | inr data =>
            let! created := lift (created_outcomes chunk data) in
            insert_chunks db_insert toInsert fuel' (off + BATCH)
              (results ++ created) (createdCount + length data)
        end
      else M_ret (results, createdCount)
  end.

(* ------------------------------------------------------------------ *)
(** ** Reconciliation and the handler (server.js lines 203-325) *)

Definition index_le (a b : outcome) : Prop := o_index a ≤ o_index b.

Global Instance index_le_dec : RelDecision index_le :=
  λ a b, decide (o_index a ≤ o_index b).

Global Instance index_le_total : Total index_le.
Proof. intros a b. unfold index_le. lia. Qed.

(** Insertion of [x] after every element [y] of [l] with [R y x] (the
    comparator lets [y] stay before [x]), up to the first one without. *)
Fixpoint insert_stable {A} (R : relation A) `{!RelDecision R} (x : A) (l : list A) : list A :=
  match l with
  | [] => [x]
  | y :: l' => if bool_decide (R y x) then y :: insert_stable R x l' else x :: l
  end.

(** [Array.prototype.sort] with a comparator whose [comparefn(a, b) <= 0]
    is [R a b]: the elements are inserted from left to right, each after
    those it does not precede, so equal elements keep their order. For a
    consistent comparator (a total preorder) this is the order of every
    stable sort, V8's TimSort included. *)
Definition stable_sort {A} (R : relation A) `{!RelDecision R} (l : list A) : list A :=
  fold_left (λ acc x, insert_stable R x acc) l [].

(** [results.sort((a, b) => a.index - b.index)]: a stable sort on [index]. *)
Definition sort_by_index (l : list outcome) : list outcome := stable_sort index_le l.

Record summary := mkSummary {
  requested : nat;
  created : nat;
  skipped_conflict : nat;
  invalid : nat;
  failed : nat
}.

Definition count_status (st : string) (l : list outcome) : nat :=
  length (List.filter (has_status st) l).

(** [RCaught e] is the answer of the [catch] handler to the exception [e]
    thrown in the [try] block: status 500 and the body
    [{ error: e.message || "Bulk insert failed" }], where [e.message] is
    the message the engine gives the exception. *)
Inductive response : Type :=
| RError (status : nat) (message : string)
| ROk (status : nat) (summary : summary) (results : list outcome)
| RCaught (e : exn).

(** [Array.isArray(body) ? body : body?.songs], then the guard of line 206. *)
Definition payload_of (body : json) : option (list json) :=
  let p := match body with
           | JArr _ => Some body
           | JObj kvs => assoc kvs "songs"
           | _ => None
           end in
  match p with
  | Some (JArr (x :: xs)) => Some (x :: xs)
  | _ => None
  end.

(** [err.message || "Database error"] *)
Definition sb_message (msg : string) : string :=
  if String.eqb msg "" then "Database error" else msg.

(** The [try] block. [db_select] is the answer to the snapshot select. *)
Definition bulk_try (db_select : string + list string) (db_insert : insert_oracle)
    (now : string) (q : query) (body : json) : M response :=
  match payload_of body with
  | None => M_ret (RError 400 "Body must be a non-empty array or { songs: [...] }")
  | Some payload =>
      let! _ := emit EvSelectSongs in
      match db_select with
      | inl msg => M_ret (RError 500 (sb_message msg))
      | inr existingNames =>
          let allowSimilar := allowSimilar_of q in
          let similarity := similarity_of q in
          let! st := lift (scan_from allowSimilar similarity existingNames now 0 payload empty_scan) in
          let! '(res, createdCount) := insert_chunks db_insert (toInsert st)
                                   (length (toInsert st)) 0 (results st) 0 in
          let sorted := sort_by_index res in
          M_ret (ROk (if 0 <? createdCount then 201 else 200)
                  (mkSummary (length payload) createdCount
                     (count_status "skipped_conflict" sorted)
                     (count_status "invalid" sorted)
                     (count_status "failed" sorted))
                  sorted)
      end
  end.

(** The handler with its [catch] (lines 321-324): the response and the
    database calls issued. *)
Definition bulk_songs (db_select : string + list string) (db_insert : insert_oracle)
    (now : string) (q : query) (body : json) : response * list event :=
  match bulk_try db_select db_insert now q body [] with
  | (inr resp, tr) => (resp, tr)
  | (inl e, tr) => (RCaught e, tr)
  end.

(* ------------------------------------------------------------------ *)
(** ** Statement vocabulary and sample inputs *)

(** A body that is a non-empty array, or an object with a non-empty array
    under [songs]. *)
Definition wraps_nonempty_list (body : json) : bool :=
  match body with
  | JArr (_ :: _) => true
  | JObj kvs => match assoc kvs "songs" with Some (JArr (_ :: _)) => true | _ => false end
  | _ => false
  end.

(** A string field that [JSON.parse] rejects. *)
Definition undecodable (v : json) : Prop :=
  ∃ s, v = JStr s ∧ JSON_parse s = None.

Definition sample_main : json := JObj [("verse", JStr "la")].
Definition sample_stanzas : json := JObj [("1", JStr "la la")].

(** A well-formed song record with structured content. *)
Definition song (name : string) : json :=
  JObj [("song_name", JStr name); ("main_stanza", sample_main); ("stanzas", sample_stanzas)].

(** A record whose [main_stanza] is serialized text that does not parse. *)
Definition song_bad_main (name : string) : json :=
  JObj [("song_name", JStr name);
        ("main_stanza", JStr "{verse: la");
        ("stanzas", sample_stanzas)].

(** An insert that succeeds and returns one row per submitted row. *)
Definition echo_insert : insert_oracle :=
  λ off rows,
    inr (imap (λ k r, mkDrow (Z.of_nat (off + k))
                        (match row_song_name r with JStr s => s | _ => "" end)) rows).

(** An insert that fails on every chunk. *)
Definition failing_insert : insert_oracle := λ _ _, inl "insert failed".

(** The best similarity score of [s] against a list of names, if any. *)
Definition max_score (s : string) (ns : list string) : option Q :=
  fold_left (λ acc n,
    let x := compareTwoStrings s n in
    match acc with None => Some x | Some y => Some (Qmax y x) end) ns None.

(** [max_score s ns >= T], false for an empty list. *)
Definition max_reaches (T : Q) (s : string) (ns : list string) : bool :=
  match max_score s ns with Some x => Qle_bool T x | None => false end.

(** The scan state after the first record [song "Amazing Grace"]. *)
Definition sample_scan : scan_state :=
  mkScan [] [(0, mkRow (JStr "Amazing Grace") sample_main sample_stanzas
                      (JStr "now") (JStr "now") (JStr "System") (JStr ""))]
         [JStr "Amazing Grace"].

(** The first position of the chunk holding position [p] of [toInsert]. *)
Definition chunk_start (p : nat) : nat := p / BATCH * BATCH.

(** The rows submitted for the chunk starting at [off]. *)
Definition chunk_rows (toInsert : list (nat * row)) (off : nat) : list row :=
  map snd (take BATCH (drop off toInsert)).

(** An insert answers for a whole chunk: on success it returns one row per
    submitted row. *)
Definition all_or_nothing (db_insert : insert_oracle) : Prop :=
  ∀ off rows data, db_insert off rows = inr data → length data = length rows.

(** The outcome [o] of the accepted record [e] at position [p] of
    [toInsert] is decided by the insert of its own chunk alone: [failed]
    with that chunk's error, or [created] with the row returned at the
    same position of the chunk. *)
Definition outcome_from_own_chunk (db_insert : insert_oracle)
    (toInsert : list (nat * row)) (p : nat) (e : nat * row) (o : outcome) : Prop :=
  let off := chunk_start p in
  match db_insert off (chunk_rows toInsert off) with
  | inl msg => o = failed_outcome msg e
  | inr data => ∃ d, data !! (p - off) = Some d ∧ o = created_outcome e d
  end.

(** Fails the chunk starting at 500, answers every other chunk in full. *)
Definition fail_second_chunk : insert_oracle :=
  λ off rows, if off =? 500 then inl "chunk failed" else echo_insert off rows.

(** [n] accepted records, indices [0 .. n-1]. *)
Definition sample_accepted (n : nat) : list (nat * row) :=
  map (λ i, (i, mkRow (JStr "Song") sample_main sample_stanzas
                     (JStr "now") (JStr "now") (JStr "System") (JStr ""))) (seq 0 n).

Definition strict_default : query := mkQuery (Some "false") None.
Definition permissive_default : query := mkQuery None None.

(** Parts of a response; the defaults are never used on [ROk]. *)
Definition resp_status (r : response) : nat :=
  match r with ROk st _ _ => st | RError st _ => st | RCaught _ => 500 end.

Definition resp_summary (r : response) : summary :=
  match r with ROk _ s _ => s | _ => mkSummary 0 0 0 0 0 end.

Definition resp_results (r : response) : list outcome :=
  match r with ROk _ _ l => l | _ => [] end.





(** Two near-duplicates, none close to the (empty) snapshot. *)
Definition pair_payload : list json := [song "Amazing Grace"; song "Amazing Grase"].

Definition pair_run : response * list event :=
  bulk_songs (inr []) echo_insert "now" strict_default (JArr pair_payload).

(* ------------------------------------------------------------------ *)
(** ** The other routes of server.js *)

(** *** More of the JavaScript runtime *)

(** [a < b] on numbers: false as soon as one side is NaN. *)
Definition js_lt (a b : jsnum) : bool :=
  match a, b with
  | JFin x, JFin y => negb (Qle_bool y x)
  | JNegInf, JFin _ | JNegInf, JPosInf | JFin _, JPosInf => true
  | _, _ => false
  end.

Definition js_gt (a b : jsnum) : bool := js_lt b a.

Definition js_neg (a : jsnum) : jsnum :=
  match a with
  | JNaN => JNaN
  | JNegInf => JPosInf
  | JPosInf => JNegInf
  | JFin x => JFin (- x)
  end.

(** [a + b] *)
Definition js_add (a b : jsnum) : jsnum :=
  match a, b with
  | JNaN, _ | _, JNaN => JNaN
  | JPosInf, JNegInf | JNegInf, JPosInf => JNaN
  | JPosInf, _ | _, JPosInf => JPosInf
  | JNegInf, _ | _, JNegInf => JNegInf
  | JFin x, JFin y => JFin (x + y)
  end.

(** [a - b] *)
Definition js_sub (a b : jsnum) : jsnum := js_add a (js_neg b).

(** [a * k] for a positive constant [k]. *)
Definition js_scale (a : jsnum) (k : Q) : jsnum :=
  match a with
  | JFin x => JFin (x * k)
  | _ => a
  end.

(** ToBoolean of a number: NaN and 0 are falsy. *)
Definition num_truthy (a : jsnum) : bool :=
  match a with
  | JNaN => false
  | JFin x => negb (Qeq_bool x 0)
  | _ => true
  end.

(** A number in [JSON.stringify]: NaN and the infinities become [null]. *)
Definition num_json (a : jsnum) : json :=
  match a with JFin x => JNum x | _ => JNull end.

(** [JSON.stringify] leaves out the properties whose value is [undefined]. *)
Fixpoint defined_kvs (kvs : list (string * value)) : list (string * json) :=
  match kvs with
  | [] => []
  | (k, Some v) :: r => (k, v) :: defined_kvs r
  | (k, None) :: r => defined_kvs r
  end.

(** [typeof v === "string" ? JSON.parse(v) : v] *)
Definition parse_if_string (v : value) : exn + value :=
  match v with
  | Some (JStr t) => match JSON_parse t with Some j => ok (Some j) | None => inl SyntaxError end
  | _ => ok v
  end.

(** [xs.find(p)] with a predicate that may throw. *)
Fixpoint find_js {A} (p : A → exn + bool) (xs : list A) : exn + option A :=
  match xs with
  | [] => ok None
  | x :: r => let* b := p x in if b then ok (Some x) else find_js p r
  end.

(** [xs.filter(p)] and [xs.map(f)] with callbacks that may throw. *)
Fixpoint filter_js {A} (p : A → exn + bool) (xs : list A) : exn + list A :=
  match xs with
  | [] => ok []
  | x :: r =>
      let* b := p x in
      let* rest := filter_js p r in
      ok (if b then x :: rest else rest)
  end.

Fixpoint map_js {A B} (f : A → exn + B) (xs : list A) : exn + list B :=
  match xs with
  | [] => ok []
  | x :: r => let* y := f x in let* rest := map_js f r in ok (y :: rest)
  end.

(** A [Map] (or an object's own properties) keyed by strings, in insertion
    order: [get] and [set], which keeps the position of an existing key. *)
Fixpoint mget {A} (m : list (string * A)) (k : string) : option A :=
  match m with
  | [] => None
  | (k', v) :: r => if String.eqb k k' then Some v else mget r k
  end.

Fixpoint mset {A} (m : list (string * A)) (k : string) (v : A) : list (string * A) :=
  match m with
  | [] => [(k, v)]
  | (k', v') :: r => if String.eqb k k' then (k', v) :: r else (k', v') :: mset r k v
  end.

(** *** parseInt (ECMA-262, 19.2.5), with no radix argument *)

Definition hex_digit_val (c : ascii) : option Z :=
  let n := nat_of_ascii c in
  if (48 <=? n) && (n <=? 57) then Some (Z.of_nat (n - 48))
  else if (97 <=? n) && (n <=? 102) then Some (Z.of_nat (n - 87))
  else if (65 <=? n) && (n <=? 70) then Some (Z.of_nat (n - 55))
  else None.

Definition radix_digit (radix : Z) (c : ascii) : option Z :=
  match hex_digit_val c with
  | Some d => if (d <? radix)%Z then Some d else None
  | None => None
  end.

(** The digits of the longest prefix of radix-[radix] digits. *)
Fixpoint span_radix (radix : Z) (s : string) : list Z :=
  match s with
  | String c r => match radix_digit radix c with Some d => d :: span_radix radix r | None => [] end
  | EmptyString => []
  end.

(** The Number value [𝔽(n)] of an integer [n]: the nearest double, ties
    to the even significand, and an infinity from [2^1024] on (the
    nearest-rounding overflow bound). Numerals of more than 20 digits are
    rounded from their exact value, as V8 does, not truncated after the
    20th digit as ECMA-262 also allows. *)
Definition double_of_Z (n : Z) : jsnum :=
  let a := Z.abs n in
  let m :=
    if (Z.log2 a <? 53)%Z then a
    else
      let e := (Z.log2 a - 52)%Z in
      let q := Z.shiftr a e in
      let r := (a - Z.shiftl q e)%Z in
      let half := Z.shiftl 1 (e - 1) in
      let q' := if (half <? r)%Z || ((r =? half)%Z && Z.odd q) then (q + 1)%Z else q in
      Z.shiftl q' e in
  if (Z.shiftl 1 1024 <=? m)%Z then (if (n <? 0)%Z then JNegInf else JPosInf)
  else JFin (inject_Z (Z.sgn n * m)).

Definition parseInt (s : string) : jsnum :=
  let t := trim_start s in
  let '(sign, t) :=
    match t with
    | String "-" r => ((-1)%Z, r)
    | String "+" r => (1%Z, r)
    | _ => (1%Z, t)
    end in
  let '(radix, t) :=
    if starts_with "0x" t || starts_with "0X" t
    then (16%Z, String.substring 2 (String.length t) t)
    else (10%Z, t) in
  match span_radix radix t with
  | [] => JNaN
  | ds => double_of_Z (sign * fold_left (λ acc d, radix * acc + d) ds 0)%Z
  end.

(** *** Responses and database calls *)

(** What a route handler leaves: [res.status(s).json(j)], or an exception
    that escapes it (these handlers have no [try]/[catch]). *)
Inductive reply : Type :=
| Reply (status : nat) (body : json)
| Escaped (name : string).

(** [jsonError(res, status, message)] (lines 44-46), with no [extra]. *)
Definition jsonError (status : nat) (message : string) : reply :=
  Reply status (JObj [("error", JStr message)]).

Inductive filter : Type :=
| FIlike (col pat : string)
| FEq (col v : string)
| FGte (col v : string)
| FLte (col v : string).

(** The database calls of these routes, in the order they are issued. *)
Inductive call : Type :=
| CSelectSongNames
| CInsertSong (r : row)
| CUpdateSong (id : string) (fields : list (string * json))
| CSelectSongsPage (filters : list filter) (from to : jsnum)
| CInsertPsalms (rows : list json)
| CSelectPresentationsBefore (cutoff : string)
| CDeletePresentations (names : list string).

(** *** POST /songs (lines 327-362) *)

Definition read_song_body (body : json) : exn + (value * value * value) :=
  let* song_name := prop body "song_name" in
  let* main_stanza := prop body "main_stanza" in
  let* stanzas := prop body "stanzas" in
  ok (song_name, main_stanza, stanzas).

(** [fetch] answers the select of [song_id, song_name]; [ins] the insert of
    one row with [.select("song_id").single()]. *)
Definition create_song (fetch : string + list (Z * string)) (ins : row → string + Z)
    (now : string) (body : json) : reply * list call :=
  match read_song_body body with
  | inl e => (Escaped (exn_message e), [])
  | inr (song_name, main_stanza, stanzas) =>
      match validate song_name main_stanza stanzas with
      | None => (jsonError 400 "Missing required fields", [])
      | Some (sn, ms, stz) =>
          match fetch with
          | inl msg => (jsonError 500 (sb_message msg), [CSelectSongNames])
          | inr allSongs =>
              match find_js (λ song, let* s := compare_js sn (JStr song.2) in
                                     ok (js_ge s (JFin (8 # 10)))) allSongs with
              | inl e => (Escaped (exn_message e), [CSelectSongNames])
              | inr (Some _) => (jsonError 409 "A similar song already exists", [CSelectSongNames])
              | inr None =>
                  match asObj ms, asObj stz with
                  | inl e, _ | _, inl e => (Escaped (exn_message e), [CSelectSongNames])
                  | inr m, inr s =>
                      let r := mkRow sn m s (JStr now) (JStr now) (JStr "System") (JStr "") in
                      (match ins r with
                       | inl msg => jsonError 500 (sb_message msg)
                       | inr id => Reply 201 (JObj [("song_id", JNum (inject_Z id))])
                       end, [CSelectSongNames; CInsertSong r])
                  end
              end
          end
      end
  end.

(** *** PUT /songs/:id (lines 364-382) *)

(** [upd] answers the update with the [song_id]s of the updated rows. *)
Definition update_song (upd : list (string * json) → string + list Z) (id : string)
    (body : json) : reply * list call :=
  match (let* song_name := prop body "song_name" in
         let* main_stanza := prop body "main_stanza" in
         let* stanzas := prop body "stanzas" in
         let* last_updated_by := prop body "last_updated_by" in
         let updatedBy := or_else last_updated_by (Some (JStr "System")) in
         let* m := parse_if_string main_stanza in
         let* s := parse_if_string stanzas in
         ok (defined_kvs [("song_name", song_name); ("main_stanza", m);
                          ("stanzas", s); ("last_updated_by", updatedBy)])) with
  | inl e => (Escaped (exn_message e), [])
  | inr fields =>
      (match upd fields with
       | inl msg => jsonError 500 (sb_message msg)
       | inr [] => jsonError 404 "Song not found"
       | inr _ => Reply 200 (JObj [("message", JStr "Song updated")])
       end, [CUpdateSong id fields])
  end.

(** *** GET /songs (lines 385-434) *)

Record songs_query := mkSongsQuery {
  sq_name : option string;
  sq_created_by : option string;
  sq_last_updated_by : option string;
  sq_created_from : option string;
  sq_created_to : option string;
  sq_updated_from : option string;
  sq_updated_to : option string;
  sq_limit : option string;
  sq_offset : option string
}.

(** [if (p) query = query.f(...)] for a query-string parameter. *)
Definition if_set (p : option string) (f : string → filter) : list filter :=
  match p with
  | Some v => if String.eqb v "" then [] else [f v]
  | None => []
  end.

Definition song_filters (qy : songs_query) : list filter :=
  if_set (sq_name qy) (λ n, FIlike "song_name" (String.append "%" (String.append n "%"))) ++
  if_set (sq_created_by qy) (FEq "created_by") ++
  if_set (sq_last_updated_by qy) (FEq "last_updated_by") ++
  if_set (sq_created_from qy) (FGte "created_at") ++
  if_set (sq_created_to qy) (FLte "created_at") ++
  if_set (sq_updated_from qy) (FGte "last_updated_at") ++
  if_set (sq_updated_to qy) (FLte "last_updated_at").

(** [Math.min(parseInt(limit ?? "1000"), 5000)] *)
Definition page_size (limit : option string) : jsnum :=
  js_min (parseInt (default "1000" limit)) (JFin 5000).

(** [Math.max(parseInt(offset ?? "0"), 0)] *)
Definition page_offset (offset : option string) : jsnum :=
  js_max (parseInt (default "0" offset)) (JFin 0).

Definition song_fields : list string :=
  ["song_id"; "song_name"; "main_stanza"; "stanzas"; "created_at";
   "last_updated_at"; "created_by"; "last_updated_by"].

(** [sel] answers the page select with its rows and its exact [count]. *)
Definition list_songs
    (sel : list filter → jsnum → jsnum → string + (list (list (string * json)) * option Z))
    (qy : songs_query) : reply * list call :=
  let pageSize := page_size (sq_limit qy) in
  let pageOffset := page_offset (sq_offset qy) in
  let filters := song_filters qy in
  let upto := js_add (js_add pageOffset pageSize) (JFin (-1)) in
  (match sel filters pageOffset upto with
   | inl msg => jsonError 500 (sb_message msg)
   | inr (data, count) =>
       let mapped := map (λ r, JObj (defined_kvs (map (λ k, (k, assoc r k)) song_fields))) data in
       Reply 200 (JObj [("total", JNum (inject_Z (default (Z.of_nat (length mapped)) count)));
                        ("limit", num_json pageSize);
                        ("offset", num_json pageOffset);
                        ("data", JArr mapped)])
   end, [CSelectSongsPage filters pageOffset upto]).

(** *** POST /psalms/bulk (lines 565-579) *)

(** [v && v.chapter && v.verse && v.telugu && v.english] *)
Definition psalm_complete (v : json) : exn + bool :=
  if truthy_json v then
    let* c := prop v "chapter" in
    if truthy c then
      let* ve := prop v "verse" in
      if truthy ve then
        let* t := prop v "telugu" in
        if truthy t then
          let* e := prop v "english" in ok (truthy e)
        else ok false
      else ok false
    else ok false
  else ok false.

(** [({ chapter, verse, telugu, english }) => ({ chapter, verse, telugu, english })] *)
Definition psalm_row (v : json) : exn + json :=
  let* c := prop v "chapter" in
  let* ve := prop v "verse" in
  let* t := prop v "telugu" in
  let* e := prop v "english" in
  ok (JObj (defined_kvs [("chapter", c); ("verse", ve); ("telugu", t); ("english", e)])).

(** [ins] answers the insert with its error, if any. *)
Definition psalms_bulk (ins : list json → option string) (body : json) : reply * list call :=
  match body with
  | JArr (x :: xs) =>
      match (let* kept := filter_js psalm_complete (x :: xs) in map_js psalm_row kept) with
      | inl e => (Escaped (exn_message e), [])
      | inr rows =>
          (match ins rows with
           | Some msg => jsonError 500 (sb_message msg)
           | None => Reply 201 (JObj [("message", JStr "Psalms inserted successfully.");
                                      ("inserted", JNum (inject_Z (Z.of_nat (length rows))))])
           end, [CInsertPsalms rows])
      end
  | _ => (jsonError 400 "Must be a non-empty array of verses.", [])
  end.

(** *** deleteOldPresentationsCompletely (lines 589-631)

    [date_of s] is the time value of [new Date(s)] (NaN when [s] does not
    parse); [cutoff] is [twoDaysAgoISO]; [sel] answers the select of the
    slides created before it, as [(presentation_name, created_datetime)]. *)

(** The [groups] map: the latest [created_datetime] of each name. *)
Definition cleanup_groups (date_of : string → jsnum) (data : list (string * string))
    : list (string * string) :=
  fold_left (λ groups r,
    match mget groups r.1 with
    | None => mset groups r.1 r.2
    | Some cur =>
        if String.eqb cur "" || js_gt (date_of r.2) (date_of cur)
        then mset groups r.1 r.2 else groups
    end) data [].

Definition deleteOldPresentationsCompletely (date_of : string → jsnum) (cutoff : string)
    (sel : string + list (string * string)) : list call :=
  CSelectPresentationsBefore cutoff ::
  match sel with
  | inl _ => []
  | inr data =>
      let groups := cleanup_groups date_of data in
      let staleNames :=
        map fst (List.filter (λ g, js_lt (date_of g.2) (date_of cutoff)) groups) in
      match staleNames with
      | [] => []
      | _ => [CDeletePresentations staleNames]
      end
  end.

(** *** GET /presentations/older (lines 89-114) *)

(** [parseInt(req.query.hours) || 48]; an absent parameter is the string
    ["undefined"] for [parseInt]. *)
Definition older_hours (hours : option string) : jsnum :=
  let h := parseInt (default "undefined" hours) in
  if num_truthy h then h else JFin 48.

(** TimeClip: the time value of [new Date(t)], [None] for an invalid date. *)
Definition time_clip (t : jsnum) : option Z :=
  match t with
  | JFin q =>
      if Qle_bool (-8640000000000000) q && Qle_bool q 8640000000000000
      then Some (Z.quot (Qnum q) (Z.pos (Qden q))) else None
  | _ => None
  end.

(** The properties of [Object.prototype]: reading one of them on [{}]
    finds a function or an object, which is truthy and whose [new Date]
    is NaN. *)
Definition proto_keys : list string :=
  ["constructor"; "__defineGetter__"; "__defineSetter__"; "hasOwnProperty";
   "__lookupGetter__"; "__lookupSetter__"; "isPrototypeOf";
   "propertyIsEnumerable"; "toString"; "valueOf"; "__proto__"; "toLocaleString"].

(** The [grouped] object: its own properties in creation order. For a
    name of [proto_keys], [!grouped[name]] is false and the comparison
    with NaN is false, so nothing is written. *)
Definition older_groups (date_of : string → jsnum) (data : list (string * string))
    : list (string * string) :=
  fold_left (λ grouped r,
    match mget grouped r.1 with
    | Some cur =>
        if String.eqb cur "" || js_lt (date_of r.2) (date_of cur)
        then mset grouped r.1 r.2 else grouped
    | None =>
        if existsb (String.eqb r.1) proto_keys then grouped
        else mset grouped r.1 r.2
    end) data [].

(** A canonical array index ["0"], ["1"], ... up to [2^32 - 2]. *)
Definition is_array_index (s : string) : bool :=
  match s with
  | EmptyString => false
  | String c r =>
      forallb is_digit (String.list_ascii_of_string s)
      && (negb (Ascii.eqb c "0") || String.eqb r "")
      && (digits_value (String.list_ascii_of_string s) <=? 4294967294)%Z
  end.

Definition index_key_le (a b : string * string) : Prop :=
  (digits_value (String.list_ascii_of_string a.1) ≤ digits_value (String.list_ascii_of_string b.1))%Z.

Global Instance index_key_le_dec : RelDecision index_key_le :=
  λ a b, decide (digits_value (String.list_ascii_of_string a.1) ≤ digits_value (String.list_ascii_of_string b.1))%Z.

(** [Object.entries]: array-index keys ascending, then the other keys in
    creation order. *)
Definition object_entries (kvs : list (string * string)) : list (string * string) :=
  merge_sort index_key_le (List.filter (λ kv, is_array_index kv.1) kvs)
  ++ List.filter (λ kv, negb (is_array_index kv.1)) kvs.

(** [a] may stay before [b] under the comparator
    [new Date(b.createdDateTime) - new Date(a.createdDateTime)]: its value
    is not positive (a NaN value counts as 0). *)
Definition date_desc (date_of : string → jsnum) (a b : string * string) : Prop :=
  js_gt (js_sub (date_of b.2) (date_of a.2)) (JFin 0) = false.

Global Instance date_desc_dec date_of : RelDecision (date_desc date_of) :=
  λ a b, decide (js_gt (js_sub (date_of b.2) (date_of a.2)) (JFin 0) = false).

Definition older_json (kv : string * string) : json :=
  JObj [("presentationName", JStr kv.1); ("createdDateTime", JStr kv.2)].

(** [now_ms] is [Date.now()]; [iso t] is [toISOString] of a valid time
    value [t]; [sel] answers the select of the slides created before the
    threshold. The entries are sorted as pairs, then turned into objects. *)
Definition older_presentations (date_of : string → jsnum) (iso : Z → string) (now_ms : Z)
    (hours : option string) (sel : string → string + list (string * string))
    : reply * list call :=
  let h := older_hours hours in
  match time_clip (js_sub (JFin (inject_Z now_ms)) (js_scale (js_scale (js_scale h 60) 60) 1000)) with
  | None => (Escaped "RangeError", [])
  | Some t =>
      let thresholdDate := iso t in
      (match sel thresholdDate with
       | inl msg => jsonError 500 (sb_message msg)
       | inr data =>
           let grouped := older_groups date_of data in
           Reply 200 (JArr (map older_json (stable_sort (date_desc date_of) (object_entries grouped))))
       end, [CSelectPresentationsBefore thresholdDate])
  end.

(** An insert of one song that returns [song_id] 7. *)
Definition echo_insert_single : row → string + Z := λ _, inr 7%Z.

(** A psalms payload: a null, a complete verse with one more key, a verse
    with no [english] and a number. *)
Definition sample_psalms : list json :=
  [JNull;
   JObj [("chapter", JNum 23); ("verse", JNum 1); ("telugu", JStr "yehova");
         ("english", JStr "The Lord is my shepherd"); ("note", JStr "x")];
   JObj [("chapter", JNum 23); ("verse", JNum 2); ("telugu", JStr "pachchika")];
   JNum 5].

(** Time values of a few ISO dates, in days. *)
Definition sample_date (s : string) : jsnum :=
  if String.eqb s "2025-01-01" then JFin 1
  else if String.eqb s "2025-01-02" then JFin 2
  else if String.eqb s "2025-01-03" then JFin 3
  else JNaN.

(** Slides of two presentations, one of them with two slides. *)
Definition sample_slides : list (string * string) :=
  [("Sunday", "2025-01-01"); ("Youth", "2025-01-02"); ("Sunday", "2025-01-02")].

(** Slides of three presentations, one named ["constructor"]. *)
Definition sample_older_slides : list (string * string) :=
  [("Sunday", "2025-01-02"); ("constructor", "2025-01-01"); ("Youth", "2025-01-02");
   ("Sunday", "2025-01-01")].

(* ------------------------------------------------------------------ *)
(** ** The stable sort *)

Section StableSort.
Context {A : Type} (R : relation A) `{!RelDecision R}.

Lemma insert_stable_perm x l : insert_stable R x l ≡ₚ x :: l.
Proof.
  induction l as [|y l IH]; simpl; [done|].
  case_bool_decide; [|done]. rewrite IH. apply perm_swap.
Qed.

Lemma stable_sort_Permutation l : stable_sort R l ≡ₚ l.
Proof.
  unfold stable_sort.
  assert (∀ acc, fold_left (λ acc x, insert_stable R x acc) l acc ≡ₚ l ++ acc) as H.
  { induction l as [|x l IH]; intros acc; simpl; [done|].
    rewrite IH, insert_stable_perm. symmetry. apply Permutation_middle. }
  by rewrite H, app_nil_r.
Qed.

Context `{!Total R}.

Lemma insert_stable_hd y x l : HdRel R y l → R y x → HdRel R y (insert_stable R x l).
Proof.
  intros Hl Hyx. destruct l as [|z l]; simpl; [by constructor|].
  case_bool_decide; constructor; [by inversion Hl|done].
Qed.

Lemma insert_stable_sorted x l : Sorted R l → Sorted R (insert_stable R x l).
Proof.
  induction l as [|y l IH]; intros Hs; simpl; [by repeat constructor|].
  apply Sorted_inv in Hs as [Hs Hhd].
  case_bool_decide as Hyx.
  - constructor; [by apply IH|]. by apply insert_stable_hd.
  - constructor; [by constructor|]. constructor.
    destruct (total R x y) as [?|?]; [done|contradiction].
Qed.

Lemma Sorted_stable_sort l : Sorted R (stable_sort R l).
Proof.
  unfold stable_sort.
  assert (∀ acc, Sorted R acc → Sorted R (fold_left (λ acc x, insert_stable R x acc) l acc))
    as H.
  { induction l as [|x l IH]; intros acc Hacc; simpl; [done|].
    apply IH. by apply insert_stable_sorted. }
  apply H. constructor.
Qed.

End StableSort.

(* ------------------------------------------------------------------ *)
(** ** Numbers from integers *)

(** Integers below [2^53] in absolute value are doubles. *)
Lemma double_of_Z_exact n : (Z.abs n < 2 ^ 53)%Z → double_of_Z n = JFin (inject_Z n).
Proof.
  intros Hn. unfold double_of_Z.
  assert ((Z.log2 (Z.abs n) <? 53)%Z = true) as ->.
  { apply Z.ltb_lt. destruct (Z.eq_dec (Z.abs n) 0%Z) as [->|Hz]; [done|].
    apply Z.log2_lt_pow2; lia. }
  assert ((Z.shiftl 1 1024 <=? Z.abs n)%Z = false) as ->.
  { apply Z.leb_gt. rewrite Z.shiftl_1_l.
    assert (2 ^ 53 < 2 ^ 1024)%Z by (apply Z.pow_lt_mono_r; lia). lia. }
  destruct (Z.sgn_spec n) as [[? ->]|[[? ->]|[? ->]]]; do 2 f_equal; lia.
Qed.

(* ------------------------------------------------------------------ *)
(** ** Payload guard *)

Lemma payload_of_wraps body :
  wraps_nonempty_list body = false → payload_of body = None.
Proof.
  intros H. unfold payload_of.
  destruct body as [| | | |l|kvs]; simpl in *; try done.
  - destruct l; done.
  - repeat case_match; done.
Qed.

(** C9: a body that is neither a non-empty array nor an object wrapping a
    non-empty array under [songs] is rejected with status 400 and the
    structural message, without per-record outcomes and before any
    database call (the trace of Supabase calls is empty). *)
Theorem bulk_rejects_malformed_body db_select db_insert now q body :
  wraps_nonempty_list body = false →
  bulk_songs db_select db_insert now q body
  = (RError 400 "Body must be a non-empty array or { songs: [...] }", []).
Proof.
  intros H. unfold bulk_songs, bulk_try.
  rewrite (payload_of_wraps body H). reflexivity.
Qed.

Lemma bulk_rejects_malformed_body_witness :
  wraps_nonempty_list (JArr []) = false ∧
  bulk_songs (inr []) echo_insert "now" permissive_default (JArr [])
  = (RError 400 "Body must be a non-empty array or { songs: [...] }", []).
Proof.
  split; [reflexivity|].
  apply bulk_rejects_malformed_body. reflexivity.
Defined.

(* ------------------------------------------------------------------ *)
(** ** Similarity threshold *)

(** The threshold is NaN or a number in [0, 1]. *)
Lemma similarity_of_range q :
  similarity_of q = JNaN ∨ ∃ t, similarity_of q = JFin t ∧ (0 <= t <= 1)%Q.
Proof.
  unfold similarity_of.
  destruct (parseFloat _) as [| | |x]; simpl.
  - left; reflexivity.
  - right; exists 0%Q; split; [reflexivity|]. split; discriminate.
  - right; exists 1%Q; split; [reflexivity|]. split; discriminate.
  - right; eexists; split; [reflexivity|].
    split; [apply Q.le_max_l|].
    apply Q.max_lub; [discriminate|apply Q.le_min_l].
Qed.

(** C8 (failing input [similarity=abc]): [parseFloat("abc")] is NaN,
    [Math.min] and [Math.max] propagate it, and every comparison
    [score >= NaN] is false, so strict mode blocks nothing. *)
Theorem similarity_non_numeric_is_NaN :
  similarity_of (mkQuery (Some "false") (Some "abc")) = JNaN ∧
  ∀ score, js_ge score (similarity_of (mkQuery (Some "false") (Some "abc"))) = false.
Proof. split; reflexivity. Qed.

(* ------------------------------------------------------------------ *)
(** ** Evaluation lemmas *)

Lemma str_nonempty a : a ≠ ""%string → String.eqb a "" = false.
Proof. intros H. destruct (String.eqb_spec a ""); done. Qed.

Lemma truthy_str a : a ≠ ""%string → truthy_json (JStr a) = true.
Proof. intros H. simpl. by rewrite str_nonempty. Qed.

Lemma some_js_total {A} (p : A → exn + bool) (f : A → bool) (l : list A) :
  (∀ x, x ∈ l → p x = ok (f x)) → some_js p l = ok (existsb f l).
Proof.
  induction l as [|x l IH]; intros Hp; simpl; [done|].
  rewrite (Hp x) by set_solver. simpl.
  destruct (f x); simpl; [done|]. apply IH. set_solver.
Qed.

(** The similarity stage on string names, written with [existsb]. *)
Lemma blocked_strings T E acc s :
  blocked false T E (map JStr acc) (JStr s)
  = ok (existsb (λ n, js_ge (compareTwoStrings s n) T) E
        || existsb (λ n, js_ge (compareTwoStrings s n) T) acc).
Proof.
  unfold blocked; simpl.
  rewrite (some_js_total _ (λ n, js_ge (compareTwoStrings s n) T)) by done. simpl.
  rewrite (some_js_total _ (λ n, match n with
                                  | JStr y => js_ge (compareTwoStrings s y) T
                                  | _ => false end)) by (intros x Hx;
      apply list_elem_of_fmap in Hx as (y & -> & _); done).
  simpl. f_equal. f_equal.
  induction acc as [|y acc IH]; simpl; [done|]. by rewrite IH.
Qed.

Lemma blocked_permissive T E acc sn : blocked true T E acc sn = ok false.
Proof. reflexivity. Qed.

Lemma read_fields_song a :
  a ≠ ""%string →
  read_fields (song a) = ok (Some (JStr a), Some sample_main, Some sample_stanzas).
Proof. intros H. unfold read_fields. simpl. rewrite (str_nonempty a H). reflexivity. Qed.

Lemma validate_song a :
  a ≠ ""%string →
  validate (Some (JStr a)) (Some sample_main) (Some sample_stanzas)
  = Some (JStr a, sample_main, sample_stanzas).
Proof. intros H. unfold validate. simpl. rewrite (str_nonempty a H). reflexivity. Qed.

Lemma build_row_song now a :
  build_row now (song a) (JStr a) sample_main sample_stanzas
  = ok (mkRow (JStr a) sample_main sample_stanzas (JStr now) (JStr now)
              (JStr "System") (JStr "")).
Proof. reflexivity. Qed.

Lemma scan_two_songs T E now a b :
  a ≠ ""%string → b ≠ ""%string →
  existsb (λ n, js_ge (compareTwoStrings a n) T) E = false →
  js_ge (compareTwoStrings b a) T = true →
  scan_from false T E now 0 [song a; song b] empty_scan
  = ok (mkScan [mkOutcome 1 (Some (JStr b)) (OSkipped "similarity" T)]
               [(0, mkRow (JStr a) sample_main sample_stanzas (JStr now) (JStr now)
                          (JStr "System") (JStr ""))]
               [JStr a]).
Proof.
  intros Ha Hb HE Hba.
  simpl scan_from. unfold scan_step.
  rewrite (read_fields_song a Ha). simpl. rewrite (str_nonempty a Ha). simpl.
  rewrite (blocked_strings T E [] a : blocked false T E [] (JStr a) = _).
  rewrite HE. simpl.
  rewrite (read_fields_song b Hb). simpl. rewrite (str_nonempty b Hb). simpl.
  rewrite (blocked_strings T E [a] b : blocked false T E [JStr a] (JStr b) = _).
  simpl. rewrite Hba, orb_true_r. reflexivity.
Qed.

(* ------------------------------------------------------------------ *)
(** ** In-payload conflicts *)

(** C4, counterexample: the spec's own scenario, in strict mode with the
    default threshold 0.8 and an empty snapshot. The later near-duplicate
    is skipped, but its [conflictWith] is ["similarity"], never
    ["payload"]. *)
Lemma payload_conflict_reported_as_similarity :
  fst (bulk_songs (inr []) echo_insert "now" strict_default
         (JArr [song "Amazing Grace"; song "Amazing Grase"]))
  = ROk 201 (mkSummary 2 1 1 0 0)
      [mkOutcome 0 (Some (JStr "Amazing Grace")) (OCreated 0);
       mkOutcome 1 (Some (JStr "Amazing Grase"))
         (OSkipped "similarity" (similarity_of strict_default))]
  ∧ "similarity"%string ≠ "payload"%string.
Proof. split; [vm_compute; reflexivity | discriminate]. Qed.

(* ------------------------------------------------------------------ *)
(** ** Content decoding *)

(** C6, counterexample: a valid record whose [main_stanza] is text that
    [JSON.parse] rejects aborts the whole request with status 500: no
    per-record outcome, not even for the well-formed record before it, and
    no insert is issued. *)
Lemma undecodable_main_stanza_aborts_batch :
  bulk_songs (inr []) echo_insert "now" permissive_default
    (JArr [song "Amazing Grace"; song_bad_main "How Great Thou Art"])
  = (RCaught SyntaxError, [EvSelectSongs]).
Proof. vm_compute. reflexivity. Qed.

Lemma asObj_inl v e : asObj v = inl e → e = SyntaxError.
Proof. unfold asObj. destruct v; try done. case_match; congruence. Qed.

Lemma scan_step_undecodable allow T E now st i raw sn ms stz n m s :
  read_fields raw = ok (sn, ms, stz) →
  validate sn ms stz = Some (n, m, s) →
  blocked allow T E (acceptedNames st) n = ok false →
  undecodable m ∨ undecodable s →
  scan_step allow T E now st i raw = inl SyntaxError.
Proof.
  intros Hrf Hv Hb Hu. unfold scan_step.
  rewrite Hrf. cbn [res_bind]. rewrite Hv. rewrite Hb. cbn [res_bind].
  unfold build_row.
  destruct Hu as [(str & -> & Hp)|(str & -> & Hp)].
  - simpl. rewrite Hp. reflexivity.
  - destruct (asObj m) eqn:Hm; cbn [res_bind].
    + apply asObj_inl in Hm. by subst.
    + simpl. rewrite Hp. reflexivity.
Qed.

Lemma scan_from_throws allow T E now raw raws :
  raw ∈ raws →
  (∀ st j, ∃ e, scan_step allow T E now st j raw = inl e) →
  ∀ i st, ∃ e, scan_from allow T E now i raws st = inl e.
Proof.
  intros Hin Hraw. induction raws as [|r raws IH]; intros i st.
  - by apply not_elem_of_nil in Hin.
  - simpl. apply elem_of_cons in Hin as [->|Hin].
    + destruct (Hraw st i) as [e He]. rewrite He. by exists e.
    + destruct (scan_step allow T E now st i r) as [e|st'];
        [by exists e | apply IH, Hin].
Qed.

(* ------------------------------------------------------------------ *)
(** ** The similarity stage, one record at a time *)

Lemma Qle_bool_max T x y : Qle_bool T (Qmax x y) = Qle_bool T x || Qle_bool T y.
Proof.
  destruct (Q.max_spec x y) as [[Hlt ->]|[Hle ->]].
  - destruct (Qle_bool T x) eqn:Hx; simpl; [|done].
    apply Qle_bool_iff in Hx. apply Qle_bool_iff.
    eapply Qle_trans; [exact Hx|]. by apply Qlt_le_weak.
  - destruct (Qle_bool T x) eqn:Hx; simpl; [done|].
    destruct (Qle_bool T y) eqn:Hy; [|done].
    apply Qle_bool_iff in Hy. apply not_true_iff_false in Hx.
    exfalso. apply Hx, Qle_bool_iff. eapply Qle_trans; [exact Hy|exact Hle].
Qed.

Lemma max_reaches_existsb T s ns :
  max_reaches T s ns = existsb (λ n, js_ge (compareTwoStrings s n) (JFin T)) ns.
Proof.
  unfold max_reaches, max_score. simpl.
  assert (Hgen : ∀ acc,
    match fold_left (λ acc n,
            let x := compareTwoStrings s n in
            match acc with None => Some x | Some y => Some (Qmax y x) end) ns acc with
    | Some x => Qle_bool T x | None => false end
    = match acc with Some y => Qle_bool T y | None => false end
      || existsb (λ n, Qle_bool T (compareTwoStrings s n)) ns).
  { induction ns as [|n ns IH]; intros acc; simpl.
    - destruct acc; [by rewrite orb_false_r|done].
    - rewrite IH. destruct acc as [y|]; simpl.
      + rewrite Qle_bool_max. by rewrite orb_assoc.
      + done. }
  apply Hgen.
Qed.

(** C7: one step of the scan either reports the record [invalid] or
    [skipped_conflict] and leaves [acceptedNames] (and [toInsert])
    unchanged, or appends to [acceptedNames] exactly the name of a record
    that passed validation and was admitted by the similarity stage
    (always admitted in permissive mode), queuing its row for insertion. *)
Theorem accepted_names_grow_only_by_admitted allow T E now st i raw st' :
  scan_step allow T E now st i raw = ok st' →
  (acceptedNames st' = acceptedNames st ∧ toInsert st' = toInsert st ∧
   ∃ o, results st' = results st ++ [o] ∧ o_index o = i ∧
        (status_of o = "invalid"%string ∨ status_of o = "skipped_conflict"%string))
  ∨ (∃ sn ms stz n m s r,
        read_fields raw = ok (sn, ms, stz) ∧
        validate sn ms stz = Some (n, m, s) ∧
        blocked allow T E (acceptedNames st) n = ok false ∧
        acceptedNames st' = acceptedNames st ++ [n] ∧
        toInsert st' = toInsert st ++ [(i, r)] ∧
        results st' = results st).
Proof.
  unfold scan_step. intros H.
  destruct (read_fields raw) as [e|[[sn ms] stz]] eqn:Hrf; [discriminate|].
  cbn [res_bind] in H.
  destruct (validate sn ms stz) as [[[n m] s]|] eqn:Hv.
  - destruct (blocked allow T E (acceptedNames st) n) as [e|b] eqn:Hb; [discriminate|].
    cbn [res_bind] in H. destruct b.
    + injection H as <-. left. simpl. split; [done|split; [done|]].
      eexists; split; [reflexivity|]. split; [reflexivity|]. by right.
    + destruct (build_row now raw n m s) as [e|r] eqn:Hr; [discriminate|].
      cbn [res_bind] in H. injection H as <-. right.
      exists sn, ms, stz, n, m, s, r. simpl. done.
  - injection H as <-. left. simpl. split; [done|split; [done|]].
    eexists; split; [reflexivity|]. split; [reflexivity|]. by left.
Qed.

Lemma accepted_names_grow_only_by_admitted_witness :
  scan_step true (JFin 0) [] "now" empty_scan 0 (song "Amazing Grace") = ok sample_scan ∧
  ((acceptedNames sample_scan = acceptedNames empty_scan ∧
    toInsert sample_scan = toInsert empty_scan ∧
    ∃ o, results sample_scan = results empty_scan ++ [o] ∧ o_index o = 0 ∧
         (status_of o = "invalid"%string ∨ status_of o = "skipped_conflict"%string))
   ∨ (∃ sn ms stz n m s r,
        read_fields (song "Amazing Grace") = ok (sn, ms, stz) ∧
        validate sn ms stz = Some (n, m, s) ∧
        blocked true (JFin 0) [] (acceptedNames empty_scan) n = ok false ∧
        acceptedNames sample_scan = acceptedNames empty_scan ++ [n] ∧
        toInsert sample_scan = toInsert empty_scan ++ [(0, r)] ∧
        results sample_scan = results empty_scan)).
Proof.
  split; [reflexivity|].
  apply (accepted_names_grow_only_by_admitted true (JFin 0) [] "now"). reflexivity.
Defined.

(** C3: in strict mode with threshold [T], a validated candidate named [s]
    (compared against the snapshot [E] and the names [acc] accepted earlier
    in the batch) is reported [skipped_conflict] and not queued for
    insertion when its best score against [E] or against [acc] is at least
    [T]; when its best score against both is below [T] it is admitted: its
    row is built and queued for insertion and its name joins
    [acceptedNames] (building the row throws only on undecodable content,
    see C6). *)
Theorem strict_threshold_decides_admission q E now st i raw sn ms stz s m stz' acc T :
  allowSimilar_of q = false →
  similarity_of q = JFin T →
  read_fields raw = ok (sn, ms, stz) →
  validate sn ms stz = Some (JStr s, m, stz') →
  acceptedNames st = map JStr acc →
  (max_reaches T s E || max_reaches T s acc = true →
   scan_step (allowSimilar_of q) (similarity_of q) E now st i raw
   = ok (mkScan (results st ++ [mkOutcome i (Some (JStr s)) (OSkipped "similarity" (JFin T))])
                (toInsert st) (acceptedNames st))) ∧
  (max_reaches T s E = false → max_reaches T s acc = false →
   scan_step (allowSimilar_of q) (similarity_of q) E now st i raw
   = (let* r := build_row now raw (JStr s) m stz' in
      ok (mkScan (results st) (toInsert st ++ [(i, r)]) (acceptedNames st ++ [JStr s])))).
Proof.
  intros Hq HT Hrf Hv Hacc.
  unfold scan_step. rewrite Hrf. cbn [res_bind]. rewrite Hv, Hq, HT, Hacc.
  rewrite blocked_strings, <- !max_reaches_existsb. cbn [res_bind].
  split.
  - intros ->. reflexivity.
  - intros -> ->. reflexivity.
Qed.

Lemma strict_threshold_decides_admission_witness :
  scan_step (allowSimilar_of strict_default) (similarity_of strict_default) []
    "now" sample_scan 1 (song "Amazing Grase")
  = ok (mkScan (results sample_scan
                ++ [mkOutcome 1 (Some (JStr "Amazing Grase")) (OSkipped "similarity" (JFin (8 # 10)))])
               (toInsert sample_scan) (acceptedNames sample_scan)).
Proof.
  apply (strict_threshold_decides_admission strict_default [] "now" sample_scan 1
           (song "Amazing Grase") (Some (JStr "Amazing Grase")) (Some sample_main)
           (Some sample_stanzas) "Amazing Grase" sample_main sample_stanzas
           ["Amazing Grace"] (8 # 10));
    [reflexivity | vm_compute; reflexivity | reflexivity | reflexivity | reflexivity
    | vm_compute; reflexivity].
Defined.

(* ------------------------------------------------------------------ *)
(** ** The chunked insert *)

Lemma created_outcomes_spec chunk data :
  length data = length chunk →
  ∃ outs, created_outcomes chunk data = ok outs ∧ length outs = length chunk ∧
    List.filter (has_status "created") outs = outs ∧
    ∀ j c, chunk !! j = Some c → ∃ d, data !! j = Some d ∧ outs !! j = Some (created_outcome c d).
Proof.
  revert chunk. induction data as [|d data IH]; intros [|c chunk] Hlen; simpl in *; try lia.
  - exists []. split; [done|]. split; [done|]. split; [done|]. intros j c Hc. done.
  - destruct (IH chunk) as (outs & Ho & Hl & Hf & Hj); [lia|].
    rewrite Ho. cbn [res_bind]. exists (created_outcome c d :: outs).
    split; [done|]. split; [simpl; lia|]. split; [simpl; by rewrite Hf|].
    intros [|j] c' Hc; simpl in *.
    + injection Hc as <-. by exists d.
    + by apply Hj.
Qed.

Lemma chunk_start_in k p : p < BATCH → chunk_start (k * BATCH + p) = k * BATCH.
Proof.
  intros Hp. unfold chunk_start. rewrite Nat.div_add_l by (unfold BATCH; lia).
  rewrite Nat.div_small by done. lia.
Qed.

Lemma filter_failed_created msg chunk :
  List.filter (has_status "created") (map (failed_outcome msg) chunk) = [].
Proof. induction chunk; simpl; done. Qed.

(** The loop from the chunk starting at [k * BATCH], given enough fuel. *)
Lemma insert_chunks_spec db_insert toIns :
  all_or_nothing db_insert →
  ∀ fuel k results cc tr,
    length toIns - k * BATCH ≤ fuel →
    ∃ new cc' tr',
      insert_chunks db_insert toIns fuel (k * BATCH) results cc tr
      = (inr (results ++ new, cc'), tr ++ tr') ∧
      length new = length toIns - k * BATCH ∧
      cc' = cc + length (List.filter (has_status "created") new) ∧
      ∀ p e, toIns !! (k * BATCH + p) = Some e →
        EvInsertSongs (chunk_start (k * BATCH + p))
                      (chunk_rows toIns (chunk_start (k * BATCH + p))) ∈ tr' ∧
        ∃ o, new !! p = Some o ∧ outcome_from_own_chunk db_insert toIns (k * BATCH + p) e o.
Proof.
  intros Hall. induction fuel as [|fuel IH]; intros k results cc tr Hfuel.
  - exists [], cc, []. rewrite !app_nil_r. split; [done|]. split; [simpl; lia|].
    split; [simpl; lia|].
    intros p e He. apply lookup_lt_Some in He. lia.
  - destruct (Nat.ltb_spec (k * BATCH) (length toIns)) as [Hlt|Hge].
    2:{ exists [], cc, []. rewrite !app_nil_r. split.
        - simpl. destruct (Nat.ltb_spec (k * BATCH) (length toIns)); [lia|done].
        - split; [simpl; lia|]. split; [simpl; lia|].
          intros p e He. apply lookup_lt_Some in He. lia. }
    set (chunk := take BATCH (drop (k * BATCH) toIns)).
    assert (Hclen : length chunk = min BATCH (length toIns - k * BATCH)).
    { unfold chunk. rewrite length_take, length_drop. lia. }
    assert (Hfuel' : length toIns - S k * BATCH ≤ fuel) by (unfold BATCH in *; lia).
    assert (Hchunk : ∃ outs cc1,
      insert_chunks db_insert toIns (S fuel) (k * BATCH) results cc tr
      = insert_chunks db_insert toIns fuel (S k * BATCH) (results ++ outs) cc1
          (tr ++ [EvInsertSongs (k * BATCH) (map snd chunk)]) ∧
      length outs = length chunk ∧
      cc1 = cc + length (List.filter (has_status "created") outs) ∧
      ∀ j c, chunk !! j = Some c → ∃ o, outs !! j = Some o ∧
        outcome_from_own_chunk db_insert toIns (k * BATCH + j) c o).
    { cbn [insert_chunks]. destruct (Nat.ltb_spec (k * BATCH) (length toIns)); [|lia].
      cbv [M_bind emit]. fold chunk.
      replace (k * BATCH + BATCH) with (S k * BATCH) by lia.
      assert (Hown : ∀ j, j < BATCH →
                chunk_start (k * BATCH + j) = k * BATCH ∧
                chunk_rows toIns (chunk_start (k * BATCH + j)) = map snd chunk).
      { intros j Hj. rewrite chunk_start_in by done. done. }
      destruct (db_insert (k * BATCH) (map snd chunk)) as [msg|data] eqn:Hdb.
      - exists (map (failed_outcome msg) chunk), cc. split; [done|].
        split; [by rewrite length_map|]. split; [rewrite filter_failed_created; simpl; lia|].
        intros j c Hc. exists (failed_outcome msg c).
        split; [by rewrite list_lookup_fmap, Hc|].
        assert (Hj : j < BATCH).
        { apply lookup_lt_Some in Hc. rewrite Hclen in Hc. lia. }
        unfold outcome_from_own_chunk. destruct (Hown j Hj) as [-> ->].
        by rewrite Hdb.
      - assert (Hdl : length data = length chunk).
        { rewrite (Hall _ _ _ Hdb). by rewrite length_map. }
        destruct (created_outcomes_spec chunk data Hdl) as (outs & Hco & Hol & Hf & Hoj).
        exists outs, (cc + length data). cbv [lift]. rewrite Hco. split; [done|].
        split; [done|]. split; [rewrite Hf; lia|].
        intros j c Hc. destruct (Hoj j c Hc) as (d & Hd & Ho).
        exists (created_outcome c d). split; [done|].
        assert (Hj : j < BATCH).
        { apply lookup_lt_Some in Hc. rewrite Hclen in Hc. lia. }
        unfold outcome_from_own_chunk. destruct (Hown j Hj) as [-> ->].
        rewrite Hdb. exists d. split; [|done].
        by replace (k * BATCH + j - k * BATCH) with j by lia. }
    destruct Hchunk as (outs & cc1 & Heq & Hol & Hcc1 & Hoj).
    destruct (IH (S k) (results ++ outs) cc1
                (tr ++ [EvInsertSongs (k * BATCH) (map snd chunk)]) Hfuel')
      as (rest & cc' & tr' & Hrun & Hrl & Hcc' & Hrp).
    exists (outs ++ rest), cc', (EvInsertSongs (k * BATCH) (map snd chunk) :: tr').
    split.
    { rewrite Heq, Hrun. by rewrite <- !app_assoc. }
    split; [rewrite length_app; unfold BATCH in *; lia|].
    split; [rewrite List.filter_app, length_app; lia|].
    intros p e He.
    destruct (decide (p < BATCH)) as [Hp|Hp].
    + rewrite chunk_start_in by done.
      assert (Hc : chunk !! p = Some e).
      { unfold chunk. rewrite lookup_take, lookup_drop. by rewrite decide_True. }
      split; [unfold chunk_rows; left|].
      destruct (Hoj p e Hc) as (o & Ho & Hown). exists o. split; [|done].
      rewrite lookup_app_l; [done|]. rewrite Hol. by apply lookup_lt_Some in Hc.
    + assert (Hpos : k * BATCH + p = S k * BATCH + (p - BATCH)) by lia.
      rewrite Hpos in He |- *.
      destruct (Hrp (p - BATCH) e He) as [Hin (o & Ho & Hown)].
      split; [by right|].
      exists o. split; [|done].
      apply lookup_lt_Some in He as Hlt'.
      rewrite lookup_app_r; [|rewrite Hol, Hclen; lia].
      rewrite Hol, Hclen.
      replace (p - min BATCH (length toIns - k * BATCH)) with (p - BATCH) by lia.
      done.
Qed.

(** The loop as the handler runs it: from offset 0 with fuel
    [length toInsert]. *)
Lemma insert_chunks_run db_insert toIns results cc tr :
  all_or_nothing db_insert →
  ∃ new cc' tr',
    insert_chunks db_insert toIns (length toIns) 0 results cc tr
    = (inr (results ++ new, cc'), tr ++ tr') ∧
    length new = length toIns ∧
    cc' = cc + length (List.filter (has_status "created") new) ∧
    ∀ p e, toIns !! p = Some e →
      EvInsertSongs (chunk_start p) (chunk_rows toIns (chunk_start p)) ∈ tr' ∧
      ∃ o, new !! p = Some o ∧ outcome_from_own_chunk db_insert toIns p e o.
Proof.
  intros Hall.
  destruct (insert_chunks_spec db_insert toIns Hall (length toIns) 0 results cc tr)
    as (new & cc' & tr' & Hrun & Hl & Hcc & Hp); [lia|].
  exists new, cc', tr'. rewrite Nat.mul_0_l, Nat.sub_0_r in *. done.
Qed.

(** C5: with inserts that answer for whole chunks, the writer never aborts:
    it issues the insert of every chunk and pushes one outcome per accepted
    record, in order. The outcome of the record at position [p] depends
    only on the insert of its own chunk (the one starting at
    [chunk_start p]): [failed] with that chunk's error when it fails,
    [created] with the returned row when it succeeds, whatever happens to
    the other chunks. *)
Theorem chunk_failures_stay_in_chunk db_insert toIns results0 cc0 tr0 :
  all_or_nothing db_insert →
  ∃ new cc tr,
    insert_chunks db_insert toIns (length toIns) 0 results0 cc0 tr0
    = (inr (results0 ++ new, cc), tr0 ++ tr) ∧
    length new = length toIns ∧
    ∀ p e, toIns !! p = Some e →
      EvInsertSongs (chunk_start p) (chunk_rows toIns (chunk_start p)) ∈ tr ∧
      ∃ o, new !! p = Some o ∧ o_index o = e.1 ∧
           outcome_from_own_chunk db_insert toIns p e o.
Proof.
  intros Hall.
  destruct (insert_chunks_run db_insert toIns results0 cc0 tr0 Hall)
    as (new & cc & tr & Hrun & Hl & _ & Hp).
  exists new, cc, tr. split; [done|]. split; [done|].
  intros p e He. destruct (Hp p e He) as [Hin (o & Ho & Hown)].
  split; [done|]. exists o. split; [done|]. split; [|done].
  unfold outcome_from_own_chunk in Hown.
  destruct (db_insert _ _); [by subst o|].
  by destruct Hown as (d & _ & ->).
Qed.

Lemma all_or_nothing_fail_second_chunk : all_or_nothing fail_second_chunk.
Proof.
  intros off rows data H. unfold fail_second_chunk, echo_insert in H.
  destruct (off =? 500); [discriminate|].
  injection H as <-. by rewrite length_imap.
Qed.

Lemma chunk_failures_stay_in_chunk_witness :
  ∃ new cc tr,
    insert_chunks fail_second_chunk (sample_accepted 1200) (length (sample_accepted 1200))
      0 [] 0 [EvSelectSongs]
    = (inr ([] ++ new, cc), [EvSelectSongs] ++ tr) ∧
    length new = length (sample_accepted 1200) ∧
    ∀ p e, sample_accepted 1200 !! p = Some e →
      EvInsertSongs (chunk_start p) (chunk_rows (sample_accepted 1200) (chunk_start p)) ∈ tr ∧
      ∃ o, new !! p = Some o ∧ o_index o = e.1 ∧
           outcome_from_own_chunk fail_second_chunk (sample_accepted 1200) p e o.
Proof.
  apply chunk_failures_stay_in_chunk.
  exact all_or_nothing_fail_second_chunk.
Defined.

(* ------------------------------------------------------------------ *)
(** ** The scan loop *)

(** The three ways one iteration of the loop ends without throwing. *)
Lemma scan_step_inv allow T E now st i raw st' :
  scan_step allow T E now st i raw = ok st' →
  ∃ sn ms stz, read_fields raw = ok (sn, ms, stz) ∧
  ((validate sn ms stz = None ∧
    st' = mkScan (results st ++ [mkOutcome i sn (OInvalid "Missing fields")])
                 (toInsert st) (acceptedNames st))
   ∨ (∃ n m s, validate sn ms stz = Some (n, m, s) ∧
       blocked allow T E (acceptedNames st) n = ok true ∧
       st' = mkScan (results st ++ [mkOutcome i (Some n) (OSkipped "similarity" T)])
                    (toInsert st) (acceptedNames st))
   ∨ (∃ n m s r, validate sn ms stz = Some (n, m, s) ∧
       blocked allow T E (acceptedNames st) n = ok false ∧
       build_row now raw n m s = ok r ∧ row_song_name r = n ∧
       st' = mkScan (results st) (toInsert st ++ [(i, r)]) (acceptedNames st ++ [n]))).
Proof.
  unfold scan_step. intros H.
  destruct (read_fields raw) as [e|[[sn ms] stz]] eqn:Hrf; [discriminate|].
  cbn [res_bind] in H. exists sn, ms, stz. split; [done|].
  destruct (validate sn ms stz) as [[[n m] s]|] eqn:Hv.
  - destruct (blocked allow T E (acceptedNames st) n) as [e|b] eqn:Hb; [discriminate|].
    cbn [res_bind] in H. destruct b.
    + injection H as <-. right; left. by exists n, m, s.
    + destruct (build_row now raw n m s) as [e|r] eqn:Hr; [discriminate|].
      cbn [res_bind] in H. injection H as <-. right; right.
      exists n, m, s, r. do 3 (split; [done|]). split; [|done].
      unfold build_row in Hr.
      destruct (asObj m); [discriminate|]. cbn [res_bind] in Hr.
      destruct (asObj s); [discriminate|]. cbn [res_bind] in Hr.
      destruct (prop raw "created_at"); [discriminate|]. cbn [res_bind] in Hr.
      destruct (prop raw "last_updated_at"); [discriminate|]. cbn [res_bind] in Hr.
      destruct (prop raw "created_by"); [discriminate|]. cbn [res_bind] in Hr.
      destruct (prop raw "last_updated_by"); [discriminate|]. cbn [res_bind] in Hr.
      by injection Hr as <-.
  - injection H as <-. left. done.
Qed.

Lemma scan_from_app allow T E now i l1 l2 st st' :
  scan_from allow T E now i (l1 ++ l2) st = ok st' →
  ∃ mid, scan_from allow T E now i l1 st = ok mid ∧
         scan_from allow T E now (i + length l1) l2 mid = ok st'.
Proof.
  revert i st. induction l1 as [|x l1 IH]; intros i st H; simpl in *.
  - exists st. by rewrite Nat.add_0_r.
  - destruct (scan_step allow T E now st i x) as [e|st1]; [discriminate|].
    cbn [res_bind] in *. destruct (IH (S i) st1 H) as (mid & H1 & H2).
    exists mid. split; [done|]. by replace (i + S (length l1)) with (S i + length l1) by lia.
Qed.

(** An outcome pushed by the scan for a record at offset [o_index o - i]. *)
Definition scan_outcome_ok allow T (i : nat) (raws : list json) (o : outcome) : Prop :=
  i ≤ o_index o ∧
  ∃ raw sn ms stz, raws !! (o_index o - i) = Some raw ∧ read_fields raw = ok (sn, ms, stz) ∧
    ((validate sn ms stz = None ∧ o_kind o = OInvalid "Missing fields") ∨
     (allow = false ∧ ∃ x, validate sn ms stz = Some x ∧ o_kind o = OSkipped "similarity" T)).

(** A row queued by the scan for the record at offset [e.1 - i]. *)
Definition scan_entry_ok (i : nat) (raws : list json) (e : nat * row) : Prop :=
  i ≤ e.1 ∧
  ∃ raw sn ms stz m s, raws !! (e.1 - i) = Some raw ∧ read_fields raw = ok (sn, ms, stz) ∧
    validate sn ms stz = Some (row_song_name e.2, m, s).

Lemma scan_outcome_ok_cons allow T i raw raws o :
  scan_outcome_ok allow T (S i) raws o → scan_outcome_ok allow T i (raw :: raws) o.
Proof.
  intros [Hle (r & sn & ms & stz & Hr & Hrest)]. split; [lia|].
  exists r, sn, ms, stz. split; [|done].
  replace (o_index o - i) with (S (o_index o - S i)) by lia. done.
Qed.

Lemma scan_entry_ok_cons i raw raws e :
  scan_entry_ok (S i) raws e → scan_entry_ok i (raw :: raws) e.
Proof.
  intros [Hle (r & sn & ms & stz & m & s & Hr & Hrest)]. split; [lia|].
  exists r, sn, ms, stz, m, s. split; [|done].
  replace (e.1 - i) with (S (e.1 - S i)) by lia. done.
Qed.

(** What a whole scan adds to its state: outcomes for invalid and skipped
    records, rows for admitted ones, together one index per record. *)
Lemma scan_from_inv allow T E now i raws st st' :
  scan_from allow T E now i raws st = ok st' →
  ∃ xr xt,
    results st' = results st ++ xr ∧ toInsert st' = toInsert st ++ xt ∧
    map o_index xr ++ map fst xt ≡ₚ seq i (length raws) ∧
    Forall (scan_outcome_ok allow T i raws) xr ∧
    Forall (scan_entry_ok i raws) xt.
Proof.
  revert i st. induction raws as [|raw raws IH]; intros i st H; simpl in H.
  - injection H as <-. exists [], []. rewrite !app_nil_r. done.
  - destruct (scan_step allow T E now st i raw) as [e|st1] eqn:Hs; [discriminate|].
    cbn [res_bind] in H. destruct (IH (S i) st1 H) as (xr & xt & Hr & Ht & Hp & Hfr & Hft).
    assert (Hfr' : Forall (scan_outcome_ok allow T i (raw :: raws)) xr).
    { eapply Forall_impl; [exact Hfr|]. intros o. apply scan_outcome_ok_cons. }
    assert (Hft' : Forall (scan_entry_ok i (raw :: raws)) xt).
    { eapply Forall_impl; [exact Hft|]. intros e. apply scan_entry_ok_cons. }
    destruct (scan_step_inv _ _ _ _ _ _ _ _ Hs)
      as (sn & ms & stz & Hrf & [[Hv ->]|[(n & m & s & Hv & Hb & ->)|(n & m & s & r & Hv & Hb & Hbr & Hn & ->)]]);
      simpl in Hr, Ht.
    + exists (mkOutcome i sn (OInvalid "Missing fields") :: xr), xt.
      rewrite Hr, Ht, <- app_assoc. split; [done|]. split; [done|].
      split; [simpl; by constructor|].
      split; [|done]. constructor; [|done].
      split; [simpl; lia|]. exists raw, sn, ms, stz. simpl.
      rewrite Nat.sub_diag. split; [done|]. split; [done|]. by left.
    + exists (mkOutcome i (Some n) (OSkipped "similarity" T) :: xr), xt.
      rewrite Hr, Ht, <- app_assoc. split; [done|]. split; [done|].
      split; [simpl; by constructor|].
      split; [|done]. constructor; [|done].
      split; [simpl; lia|]. exists raw, sn, ms, stz. simpl.
      rewrite Nat.sub_diag. split; [done|]. split; [done|]. right.
      split; [|by exists (n, m, s)].
      destruct allow; [|done]. by rewrite blocked_permissive in Hb.
    + exists xr, ((i, r) :: xt).
      rewrite Hr, Ht, <- app_assoc. split; [done|]. split; [done|].
      split; [simpl; rewrite <- Permutation_middle; by constructor|].
      split; [done|]. constructor; [|done].
      split; [simpl; lia|]. exists raw, sn, ms, stz, m, s. simpl.
      rewrite Nat.sub_diag, Hn. done.
Qed.

(** [acceptedNames] holds the names of the queued rows. *)
Lemma scan_from_names allow T E now i raws st st' :
  scan_from allow T E now i raws st = ok st' →
  acceptedNames st = map (row_song_name ∘ snd) (toInsert st) →
  acceptedNames st' = map (row_song_name ∘ snd) (toInsert st').
Proof.
  revert i st. induction raws as [|raw raws IH]; intros i st H Hn; simpl in H.
  - by injection H as <-.
  - destruct (scan_step allow T E now st i raw) as [e|st1] eqn:Hs; [discriminate|].
    cbn [res_bind] in H. apply (IH (S i) st1 H).
    destruct (scan_step_inv _ _ _ _ _ _ _ _ Hs)
      as (sn & ms & stz & Hrf & [[Hv ->]|[(n & m & s & Hv & Hb & ->)|(n & m & s & r & Hv & Hb & Hbr & Hrn & ->)]]);
      simpl; [done|done|].
    rewrite Hn, map_app. simpl. by rewrite Hrn.
Qed.

(* ------------------------------------------------------------------ *)
(** ** The handler, when it answers with outcomes *)

Lemma bulk_songs_ok db_select db_insert now q body payload status summ res tr :
  all_or_nothing db_insert →
  payload_of body = Some payload →
  bulk_songs db_select db_insert now q body = (ROk status summ res, tr) →
  ∃ E st new cc,
    db_select = inr E ∧
    scan_from (allowSimilar_of q) (similarity_of q) E now 0 payload empty_scan = ok st ∧
    length new = length (toInsert st) ∧
    cc = length (List.filter (has_status "created") new) ∧
    (∀ p e, toInsert st !! p = Some e →
       ∃ o, new !! p = Some o ∧ outcome_from_own_chunk db_insert (toInsert st) p e o) ∧
    res = sort_by_index (results st ++ new) ∧
    summ = mkSummary (length payload) cc (count_status "skipped_conflict" res)
             (count_status "invalid" res) (count_status "failed" res).
Proof.
  intros Hall Hp H. unfold bulk_songs, bulk_try in H. rewrite Hp in H.
  cbv [M_bind emit lift M_ret] in H.
  destruct db_select as [msg|E]; [discriminate|].
  destruct (scan_from (allowSimilar_of q) (similarity_of q) E now 0 payload empty_scan)
    as [e|st] eqn:Hs; [discriminate|].
  destruct (insert_chunks_run db_insert (toInsert st) (results st) 0 ([] ++ [EvSelectSongs]) Hall)
    as (new & cc & tr' & Hrun & Hl & Hcc & Hpos).
  rewrite Hrun in H. injection H as <- <- <-.
  exists E, st, new, cc. do 4 (split; [done|]). split.
  - intros p e He. by destruct (Hpos p e He) as [_ ?].
  - done.
Qed.

Lemma outcome_from_own_chunk_index db_insert toIns p e o :
  outcome_from_own_chunk db_insert toIns p e o → o_index o = e.1.
Proof.
  unfold outcome_from_own_chunk. destruct (db_insert _ _); [by intros ->|].
  by intros (d & _ & ->).
Qed.

Lemma outcome_from_own_chunk_status db_insert toIns p e o :
  outcome_from_own_chunk db_insert toIns p e o →
  status_of o = "created"%string ∨ status_of o = "failed"%string.
Proof.
  unfold outcome_from_own_chunk. destruct (db_insert _ _); [intros ->; by right|].
  intros (d & _ & ->). by left.
Qed.

(** Every outcome of the writer belongs to a queued row, at its position. *)
Lemma writer_outcome_at db_insert toIns new o :
  length new = length toIns →
  (∀ p e, toIns !! p = Some e →
     ∃ o, new !! p = Some o ∧ outcome_from_own_chunk db_insert toIns p e o) →
  o ∈ new →
  ∃ p e, toIns !! p = Some e ∧ new !! p = Some o ∧
         outcome_from_own_chunk db_insert toIns p e o.
Proof.
  intros Hl Hpos Ho. apply list_elem_of_lookup in Ho as [p Hp].
  assert (Hlt : p < length toIns) by (rewrite <- Hl; by eapply lookup_lt_Some).
  apply lookup_lt_is_Some in Hlt as [e He].
  destruct (Hpos p e He) as (o' & Ho' & Hown). rewrite Hp in Ho'. injection Ho' as <-.
  by exists p, e.
Qed.



Lemma sort_by_index_elem_of o l : o ∈ sort_by_index l ↔ o ∈ l.
Proof. unfold sort_by_index. by rewrite stable_sort_Permutation. Qed.

Lemma filter_all {A} (f : A → bool) l : (∀ x, x ∈ l → f x = true) → List.filter f l = l.
Proof.
  induction l as [|x l IH]; intros H; simpl; [done|].
  rewrite (H x) by by left. f_equal. apply IH. intros y Hy. apply H. by right.
Qed.

Lemma some_js_false {A} (p : A → exn + bool) l x :
  some_js p l = ok false → x ∈ l → p x = ok true → False.
Proof.
  induction l as [|y l IH]; simpl; intros H Hx Hp; [by apply not_elem_of_nil in Hx|].
  destruct (p y) as [e|b] eqn:Hy; [discriminate|]. cbn [res_bind] in H.
  apply elem_of_cons in Hx as [->|Hx].
  - rewrite Hp in Hy. injection Hy as <-. discriminate.
  - destruct b; [discriminate|]. by apply IH.
Qed.

Lemma blocked_strict_hit T E acc sj si :
  JStr si ∈ acc → js_ge (compareTwoStrings sj si) T = true →
  blocked false T E acc (JStr sj) = ok false → False.
Proof.
  intros Hin Hge H. unfold blocked in H. cbn [negb] in H.
  destruct (some_js _ E) as [e|ce]; [discriminate|]. cbn [res_bind] in H.
  destruct (some_js _ acc) as [e|cp] eqn:Hcp; [discriminate|]. cbn [res_bind] in H.
  injection H as H. apply orb_false_iff in H as [_ ->].
  eapply some_js_false; [exact Hcp|exact Hin|]. simpl. by rewrite Hge.
Qed.

(* ------------------------------------------------------------------ *)
(** ** The handler's answers *)





Lemma read_fields_not_null raw x : read_fields raw = ok x → raw ≠ JNull.
Proof. by intros H ->. Qed.

Lemma prop_not_null raw k : raw ≠ JNull → ∃ v, prop raw k = ok v.
Proof. destruct raw; intros H; try done; eauto. Qed.

Lemma asObj_decodable v : ¬ undecodable v → ∃ j, asObj v = ok j.
Proof.
  intros Hu. unfold asObj. destruct v as [| | |s| |]; eauto.
  destruct (JSON_parse s) eqn:E; eauto. exfalso. apply Hu. by exists s.
Qed.

(** The row of an admitted record is built without an exception when its
    content decodes. *)
Lemma build_row_decodable now raw sn ms stz n m s :
  read_fields raw = ok (sn, ms, stz) → ¬ undecodable m → ¬ undecodable s →
  ∃ m' s' r, build_row now raw n m s = ok r ∧ asObj m = ok m' ∧ asObj s = ok s' ∧
    row_song_name r = n ∧ row_main_stanza r = m' ∧ row_stanzas r = s'.
Proof.
  intros Hrf Hm Hs. pose proof (read_fields_not_null _ _ Hrf) as Hnn.
  destruct (asObj_decodable m Hm) as [m' Hm'], (asObj_decodable s Hs) as [s' Hs'].
  unfold build_row. rewrite Hm', Hs'. cbn [res_bind].
  destruct (prop_not_null raw "created_at" Hnn) as [a ->]. cbn [res_bind].
  destruct (prop_not_null raw "last_updated_at" Hnn) as [b ->]. cbn [res_bind].
  destruct (prop_not_null raw "created_by" Hnn) as [c ->]. cbn [res_bind].
  destruct (prop_not_null raw "last_updated_by" Hnn) as [d ->]. cbn [res_bind].
  eexists m', s', _. split; [reflexivity|]. done.
Qed.


(* ------------------------------------------------------------------ *)
(** ** Reconciliation *)



Lemma all_or_nothing_echo_insert : all_or_nothing echo_insert.
Proof. intros off rows data H. injection H as <-. by rewrite length_imap. Qed.





(* ------------------------------------------------------------------ *)
(** ** In-payload conflicts, across the handler *)

(** The row queued for a record carries the name validated for it. *)
Lemma queued_row_name payload st i e ri sn ms stz m s si :
  Forall (scan_entry_ok 0 payload) (toInsert st) →
  e ∈ toInsert st → e.1 = i → payload !! i = Some ri →
  read_fields ri = ok (sn, ms, stz) → validate sn ms stz = Some (JStr si, m, s) →
  row_song_name e.2 = JStr si.
Proof.
  intros Hft He Hi Hri Hrf Hv. rewrite Forall_forall in Hft.
  destruct (Hft e He) as [_ (raw & sn' & ms' & stz' & m'' & s'' & Hraw & Hrf' & Hv')].
  rewrite Hi, Nat.sub_0_r, Hri in Hraw. injection Hraw as <-.
  rewrite Hrf in Hrf'. injection Hrf' as <- <- <-.
  rewrite Hv in Hv'. by injection Hv' as <-.
Qed.

Lemma some_js_true {A} (p : A → exn + bool) l :
  some_js p l = ok true → ∃ x, x ∈ l ∧ p x = ok true.
Proof.
  induction l as [|y l IH]; simpl; [discriminate|].
  destruct (p y) as [e|b] eqn:Hy; [discriminate|]. cbn [res_bind].
  destruct b; intros H.
  - exists y. split; [by left|done].
  - destruct (IH H) as (x & Hx & Hp). exists x. split; [by right|done].
Qed.

(** A string name below the threshold against the snapshot and against
    every accepted name is not blocked. *)
Lemma blocked_strict_miss T E acc si :
  existsb (λ n, js_ge (compareTwoStrings si n) T) E = false →
  (∀ n x, n ∈ acc → compare_js (JStr si) n = ok x → js_ge x T = false) →
  blocked false T E acc (JStr si) = ok true → False.
Proof.
  intros HE Hacc H. unfold blocked in H. cbn [negb] in H.
  rewrite (some_js_total _ (λ n, js_ge (compareTwoStrings si n) T)) in H by done.
  rewrite HE in H. cbn [res_bind orb] in H.
  destruct (some_js _ acc) as [e|b] eqn:Hb; [discriminate|]. cbn [res_bind] in H.
  injection H as ->.
  destruct (some_js_true _ _ Hb) as (n & Hn & Hp).
  destruct (compare_js (JStr si) n) as [e|x] eqn:Hc; [discriminate|].
  cbn [res_bind] in Hp. injection Hp as Hp. by rewrite (Hacc n x Hn Hc) in Hp.
Qed.

(** In strict mode the scan queues a record whose string name is below
    the threshold against the snapshot and against the validated name of
    every record before it. *)
Lemma scan_queues_unblocked T E now payload st i ri sn ms stz m s si :
  scan_from false T E now 0 payload empty_scan = ok st →
  payload !! i = Some ri →
  read_fields ri = ok (sn, ms, stz) → validate sn ms stz = Some (JStr si, m, s) →
  existsb (λ n, js_ge (compareTwoStrings si n) T) E = false →
  (∀ k rk a b c n m' s' x, k < i → payload !! k = Some rk →
     read_fields rk = ok (a, b, c) → validate a b c = Some (n, m', s') →
     compare_js (JStr si) n = ok x → js_ge x T = false) →
  ∃ e, e ∈ toInsert st ∧ e.1 = i ∧ row_song_name e.2 = JStr si.
Proof.
  intros Hs Hri Hrf Hv HE Hprev.
  assert (Hil : i < length payload) by by eapply lookup_lt_Some.
  rewrite <- (take_drop_middle payload i ri Hri) in Hs.
  destruct (scan_from_app _ _ _ _ _ _ _ _ _ Hs) as (mid & Hmid & Hrest).
  rewrite length_take, Nat.min_l in Hrest by lia. simpl in Hrest.
  destruct (scan_step false T E now mid i ri) as [ex|mid1] eqn:Hstep; [discriminate|].
  cbn [res_bind] in Hrest.
  destruct (scan_from_inv _ _ _ _ _ _ _ _ Hrest) as (xr2 & xt2 & _ & Ht2 & _ & _ & _).
  destruct (scan_from_inv _ _ _ _ _ _ _ _ Hmid) as (xr1 & xt1 & _ & Ht1 & _ & _ & Hft1).
  simpl in Ht1.
  assert (Hacc : acceptedNames mid = map (row_song_name ∘ snd) (toInsert mid)).
  { by apply (scan_from_names _ _ _ _ _ _ _ _ Hmid). }
  destruct (scan_step_inv _ _ _ _ _ _ _ _ Hstep)
    as (a & b & c & Hrf' & [[Hv' _]|[(n & m1 & s1 & Hv' & Hb & _)|(n & m1 & s1 & r & Hv' & Hb & Hbr & Hrn & ->)]]);
    rewrite Hrf in Hrf'; injection Hrf' as <- <- <-; rewrite Hv in Hv'; try discriminate;
    injection Hv' as <- <- <-.
  - exfalso. apply (blocked_strict_miss T E (acceptedNames mid) si HE); [|exact Hb].
    intros n x Hn Hc. rewrite Hacc, Ht1 in Hn.
    apply list_elem_of_fmap in Hn as (e & -> & He).
    rewrite Forall_forall in Hft1.
    destruct (Hft1 e He) as [_ (raw & a & b & c & m' & s' & Hraw & Hrfk & Hvk)].
    rewrite Nat.sub_0_r, lookup_take in Hraw.
    case_decide as Hlt; [|discriminate].
    exact (Hprev _ _ _ _ _ _ _ _ _ Hlt Hraw Hrfk Hvk Hc).
  - exists (i, r). split; [|done].
    rewrite Ht2. simpl. apply elem_of_app. left. apply elem_of_app. right. by left.
Qed.

(** In strict mode, once a row is queued, a later record whose validated
    string name scores at least the threshold against the row's name is
    skipped by the scan. *)
Lemma scan_queued_blocks_later T E now payload st e j rj sn ms stz m s sj si :
  scan_from false T E now 0 payload empty_scan = ok st →
  e ∈ toInsert st → e.1 < j → row_song_name e.2 = JStr si →
  payload !! j = Some rj →
  read_fields rj = ok (sn, ms, stz) → validate sn ms stz = Some (JStr sj, m, s) →
  js_ge (compareTwoStrings sj si) T = true →
  mkOutcome j (Some (JStr sj)) (OSkipped "similarity" T) ∈ results st.
Proof.
  intros Hs Hein Hej Hname Hrj Hrfj Hvj Hge.
  assert (Hjl : j < length payload) by by eapply lookup_lt_Some.
  rewrite <- (take_drop_middle payload j rj Hrj) in Hs.
  destruct (scan_from_app _ _ _ _ _ _ _ _ _ Hs) as (mid & Hmid & Hrest).
  rewrite length_take, Nat.min_l in Hrest by lia. simpl in Hrest.
  destruct (scan_step false T E now mid j rj) as [ex|mid1] eqn:Hstep; [discriminate|].
  cbn [res_bind] in Hrest.
  destruct (scan_from_inv _ _ _ _ _ _ _ _ Hrest) as (xr2 & xt2 & Hr2 & Ht2 & _ & _ & Hft2).
  assert (Hacc : acceptedNames mid = map (row_song_name ∘ snd) (toInsert mid)).
  { by apply (scan_from_names _ _ _ _ _ _ _ _ Hmid). }
  destruct (scan_step_inv _ _ _ _ _ _ _ _ Hstep)
    as (a & b & c & Hrf & [[Hv ->]|[(n & m1 & s1 & Hv & Hb & ->)|(n & m1 & s1 & r & Hv & Hb & Hbr & Hrn & ->)]]);
    rewrite Hrfj in Hrf; injection Hrf as <- <- <-; rewrite Hvj in Hv; try discriminate;
    injection Hv as <- <- <-.
  - rewrite Hr2. simpl. apply elem_of_app. left.
    apply elem_of_app. right. by left.
  - exfalso. simpl in Ht2. rewrite Ht2 in Hein.
    apply elem_of_app in Hein as [Hein|Hein].
    + apply elem_of_app in Hein as [Hein|Hein].
      * apply (blocked_strict_hit T E (acceptedNames mid) sj si); [|done|done].
        rewrite Hacc, <- Hname. apply list_elem_of_fmap. by exists e.
      * apply list_elem_of_singleton in Hein. subst e. simpl in Hej. lia.
    + rewrite Forall_forall in Hft2. destruct (Hft2 e Hein) as [Hle _]. lia.
Qed.

(** C4, amended: take an answer with outcomes, with inserts that answer
    for whole chunks. (1) Every [skipped_conflict] outcome has
    [conflictWith = "similarity"] and echoes the threshold [T], so it never
    says whether the match came from the snapshot or the payload. (2) In
    strict mode, let records [i < j] pass validation with string names
    [si] and [sj], [sj] scoring at least [T] against [si]. If [si] scores
    below [T] against every snapshot name and against the validated name
    of every record before [i], record [i] is accepted (reported
    [created] or [failed]) and record [j] is reported [skipped_conflict]. *)
Theorem near_duplicate_later_record_skipped E db_insert now q body payload status summ res tr
    i j ri rj sn ms stz m s si sn' ms' stz' m' s' sj :
  all_or_nothing db_insert →
  payload_of body = Some payload →
  bulk_songs (inr E) db_insert now q body = (ROk status summ res, tr) →
  (∀ o, o ∈ res → status_of o = "skipped_conflict"%string →
     o_kind o = OSkipped "similarity" (similarity_of q)) ∧
  (allowSimilar_of q = false →
   i < j →
   payload !! i = Some ri →
   read_fields ri = ok (sn, ms, stz) → validate sn ms stz = Some (JStr si, m, s) →
   payload !! j = Some rj →
   read_fields rj = ok (sn', ms', stz') → validate sn' ms' stz' = Some (JStr sj, m', s') →
   js_ge (compareTwoStrings sj si) (similarity_of q) = true →
   existsb (λ n, js_ge (compareTwoStrings si n) (similarity_of q)) E = false →
   (∀ k rk a b c n m'' s'' x, k < i → payload !! k = Some rk →
      read_fields rk = ok (a, b, c) → validate a b c = Some (n, m'', s'') →
      compare_js (JStr si) n = ok x → js_ge x (similarity_of q) = false) →
   (∃ o, o ∈ res ∧ o_index o = i ∧
         (status_of o = "created"%string ∨ status_of o = "failed"%string)) ∧
   mkOutcome j (Some (JStr sj)) (OSkipped "similarity" (similarity_of q)) ∈ res).
Proof.
  intros Hall Hp H.
  destruct (bulk_songs_ok _ _ _ _ _ _ _ _ _ _ Hall Hp H)
    as (E' & st & new & cc & HE' & Hs & Hl & _ & Hpos & -> & _).
  injection HE' as <-.
  destruct (scan_from_inv _ _ _ _ _ _ _ _ Hs) as (xr & xt & Hr & Ht & _ & Hfr & Hft).
  simpl in Hr, Ht. split.
  - intros o Ho Hst. apply sort_by_index_elem_of, elem_of_app in Ho as [Ho|Ho].
    + rewrite Hr in Ho. rewrite Forall_forall in Hfr.
      destruct (Hfr o Ho) as [_ (raw & a & b & c & _ & _ & [[_ Hk]|[_ (x & _ & Hk)]])];
        [|done].
      unfold status_of in Hst. by rewrite Hk in Hst.
    + destruct (writer_outcome_at _ _ _ _ Hl Hpos Ho) as (p & e & _ & _ & Hown).
      by destruct (outcome_from_own_chunk_status _ _ _ _ _ Hown) as [Hc|Hc];
        rewrite Hc in Hst.
  - intros Hq Hij Hri Hrfi Hvi Hrj Hrfj Hvj Hge HE Hprev. rewrite Hq in Hs.
    destruct (scan_queues_unblocked _ _ _ _ _ _ _ _ _ _ _ _ _ Hs Hri Hrfi Hvi HE Hprev)
      as (e & He & Hei & Hname).
    split.
    + apply list_elem_of_lookup in He as [p Hep].
      destruct (Hpos p e Hep) as (o & Ho & Hown). exists o. split.
      * apply sort_by_index_elem_of, elem_of_app. right. by eapply list_elem_of_lookup_2.
      * split; [rewrite <- Hei; by eapply outcome_from_own_chunk_index|].
        by eapply outcome_from_own_chunk_status.
    + apply sort_by_index_elem_of, elem_of_app. left.
      eapply scan_queued_blocks_later; [exact Hs|exact He|lia|exact Hname|exact Hrj|exact Hrfj|exact Hvj|exact Hge].
Qed.

Lemma near_duplicate_later_record_skipped_witness :
  (∀ o, o ∈ resp_results (fst pair_run) → status_of o = "skipped_conflict"%string →
     o_kind o = OSkipped "similarity" (similarity_of strict_default)) ∧
  (∃ o, o ∈ resp_results (fst pair_run) ∧ o_index o = 0 ∧
        (status_of o = "created"%string ∨ status_of o = "failed"%string)) ∧
  mkOutcome 1 (Some (JStr "Amazing Grase")) (OSkipped "similarity" (similarity_of strict_default))
  ∈ resp_results (fst pair_run).
Proof.
  destruct (near_duplicate_later_record_skipped [] echo_insert "now" strict_default
           (JArr pair_payload) pair_payload
           (resp_status (fst pair_run)) (resp_summary (fst pair_run))
           (resp_results (fst pair_run)) (snd pair_run)
           0 1 (song "Amazing Grace") (song "Amazing Grase")
           (Some (JStr "Amazing Grace")) (Some sample_main) (Some sample_stanzas)
           sample_main sample_stanzas "Amazing Grace"
           (Some (JStr "Amazing Grase")) (Some sample_main) (Some sample_stanzas)
           sample_main sample_stanzas "Amazing Grase") as [H1 H2];
    [exact all_or_nothing_echo_insert | reflexivity | vm_compute; reflexivity |].
  split; [exact H1|]. apply H2;
    [reflexivity | lia | reflexivity | reflexivity | reflexivity
    | reflexivity | reflexivity | reflexivity | vm_compute; reflexivity | reflexivity |].
  intros k. lia.
Defined.

(** C10: in strict mode the name of an accepted record joins
    [acceptedNames] when the scan accepts it, before any insert is issued.
    So in any payload, when record [i] ends up [failed] (the insert of its
    chunk failed), a later record [j] whose validated string name scores
    at least the threshold against the name of [i] is still reported
    [skipped_conflict]: the skip is already in the results of the scan,
    which runs after the snapshot read and before any insert, against a
    name that was never created. *)
Theorem accepted_name_blocks_after_failed_insert db_select db_insert now q body payload
    status summ res tr i j ri rj sn ms stz m s si sn' ms' stz' m' s' sj :
  allowSimilar_of q = false →
  all_or_nothing db_insert →
  payload_of body = Some payload →
  bulk_songs db_select db_insert now q body = (ROk status summ res, tr) →
  i < j →
  payload !! i = Some ri →
  read_fields ri = ok (sn, ms, stz) → validate sn ms stz = Some (JStr si, m, s) →
  payload !! j = Some rj →
  read_fields rj = ok (sn', ms', stz') → validate sn' ms' stz' = Some (JStr sj, m', s') →
  js_ge (compareTwoStrings sj si) (similarity_of q) = true →
  (∃ o, o ∈ res ∧ o_index o = i ∧ status_of o = "failed"%string) →
  ∃ E st, db_select = inr E ∧
    scan_from false (similarity_of q) E now 0 payload empty_scan = ok st ∧
    mkOutcome j (Some (JStr sj)) (OSkipped "similarity" (similarity_of q)) ∈ results st ∧
    mkOutcome j (Some (JStr sj)) (OSkipped "similarity" (similarity_of q)) ∈ res.
Proof.
  intros Hq Hall Hp H Hij Hri Hrfi Hvi Hrj Hrfj Hvj Hge (o & Ho & Hoi & Hos).
  destruct (bulk_songs_ok _ _ _ _ _ _ _ _ _ _ Hall Hp H)
    as (E & st & new & cc & HE & Hs & Hl & _ & Hpos & -> & _).
  rewrite Hq in Hs.
  destruct (scan_from_inv _ _ _ _ _ _ _ _ Hs) as (xr & xt & Hr & Ht & _ & Hfr & Hft).
  simpl in Hr, Ht. rewrite <- Ht in Hft.
  (* the failed record [i] has a queued row named [si] *)
  apply sort_by_index_elem_of, elem_of_app in Ho as [Ho|Ho].
  { exfalso. rewrite Hr in Ho. rewrite Forall_forall in Hfr.
    destruct (Hfr o Ho) as [_ (raw & a & b & c & _ & _ & [[_ Hk]|[_ (x & _ & Hk)]])];
      unfold status_of in Hos; rewrite Hk in Hos; discriminate. }
  destruct (writer_outcome_at _ _ _ _ Hl Hpos Ho) as (p & e & He & _ & Hown).
  apply outcome_from_own_chunk_index in Hown. rewrite Hoi in Hown.
  assert (Hein : e ∈ toInsert st) by by eapply list_elem_of_lookup_2.
  assert (Hname : row_song_name e.2 = JStr si).
  { by eapply (queued_row_name payload st i e ri sn ms stz m s si). }
  assert (Hin : mkOutcome j (Some (JStr sj)) (OSkipped "similarity" (similarity_of q))
                ∈ results st).
  { eapply scan_queued_blocks_later;
      [exact Hs|exact Hein|lia|exact Hname|exact Hrj|exact Hrfj|exact Hvj|exact Hge]. }
  exists E, st. split; [done|]. split; [done|]. split; [done|].
  apply sort_by_index_elem_of, elem_of_app. by left.
Qed.

(** Two near-duplicates with an invalid record between them. *)
Definition gap_payload : list json := [song "Amazing Grace"; JObj []; song "Amazing Grase"].

Definition gap_run : response * list event :=
  bulk_songs (inr []) failing_insert "now" strict_default (JArr gap_payload).

Lemma accepted_name_blocks_after_failed_insert_witness :
  ∃ E st, (inr [] : string + list string) = inr E ∧
    scan_from false (similarity_of strict_default) E "now" 0 gap_payload empty_scan = ok st ∧
    mkOutcome 2 (Some (JStr "Amazing Grase")) (OSkipped "similarity" (similarity_of strict_default))
      ∈ results st ∧
    mkOutcome 2 (Some (JStr "Amazing Grase")) (OSkipped "similarity" (similarity_of strict_default))
      ∈ resp_results (fst gap_run).
Proof.
  apply (accepted_name_blocks_after_failed_insert (inr []) failing_insert "now" strict_default
           (JArr gap_payload) gap_payload
           (resp_status (fst gap_run)) (resp_summary (fst gap_run))
           (resp_results (fst gap_run)) (snd gap_run)
           0 2 (song "Amazing Grace") (song "Amazing Grase")
           (Some (JStr "Amazing Grace")) (Some sample_main) (Some sample_stanzas)
           sample_main sample_stanzas "Amazing Grace"
           (Some (JStr "Amazing Grase")) (Some sample_main) (Some sample_stanzas)
           sample_main sample_stanzas "Amazing Grase");
    [reflexivity | intros ? ? ? Hd; discriminate | reflexivity | vm_compute; reflexivity
    | lia | reflexivity | reflexivity | reflexivity | reflexivity | reflexivity | reflexivity
    | vm_compute; reflexivity |].
  exists (mkOutcome 0 (Some (JStr "Amazing Grace")) (OFailed "insert failed")).
  split; [|split; reflexivity].
  apply (list_elem_of_lookup_2 _ 0). vm_compute. reflexivity.
Defined.

(* ------------------------------------------------------------------ *)
(** ** Content decoding, in the handler *)

Lemma scan_from_app_eq allow T E now i l1 l2 st :
  scan_from allow T E now i (l1 ++ l2) st
  = res_bind (scan_from allow T E now i l1 st)
      (λ mid, scan_from allow T E now (i + length l1) l2 mid).
Proof.
  revert i st. induction l1 as [|x l1 IH]; intros i st; simpl.
  - by rewrite Nat.add_0_r.
  - destruct (scan_step allow T E now st i x) as [e|st1]; [done|]. cbn [res_bind].
    rewrite IH. by replace (S i + length l1) with (i + S (length l1)) by lia.
Qed.

(** C6, amended: a [main_stanza] or [stanzas] that is text [JSON.parse]
    rejects never becomes a per-record outcome. (1) An invalid record and
    (2) a record the similarity stage blocks get their outcome with no
    decoding, whatever their content. (3) Decoding happens when the row of
    an admitted record is built: the step throws a SyntaxError when the
    content does not decode, and queues the row with the decoded content
    otherwise. (4) In either mode, an admitted record with such content,
    once the records before it went through, makes the handler answer
    from its [catch] handler with status 500: no outcome, no insert. (5) In
    permissive mode every valid record is admitted, so one valid record
    with such content anywhere in the payload stops the request with the
    [catch] handler (with that SyntaxError, or an earlier exception). *)
Theorem undecodable_content_aborts_request :
  (∀ allow T E now st i raw sn ms stz,
     read_fields raw = ok (sn, ms, stz) → validate sn ms stz = None →
     scan_step allow T E now st i raw
     = ok (mkScan (results st ++ [mkOutcome i sn (OInvalid "Missing fields")])
                  (toInsert st) (acceptedNames st))) ∧
  (∀ allow T E now st i raw sn ms stz n m s,
     read_fields raw = ok (sn, ms, stz) → validate sn ms stz = Some (n, m, s) →
     blocked allow T E (acceptedNames st) n = ok true →
     scan_step allow T E now st i raw
     = ok (mkScan (results st ++ [mkOutcome i (Some n) (OSkipped "similarity" T)])
                  (toInsert st) (acceptedNames st))) ∧
  (∀ allow T E now st i raw sn ms stz n m s,
     read_fields raw = ok (sn, ms, stz) → validate sn ms stz = Some (n, m, s) →
     blocked allow T E (acceptedNames st) n = ok false →
     (undecodable m ∨ undecodable s → scan_step allow T E now st i raw = inl SyntaxError) ∧
     (¬ undecodable m → ¬ undecodable s →
      ∃ m' s' r, asObj m = ok m' ∧ asObj s = ok s' ∧
        row_song_name r = n ∧ row_main_stanza r = m' ∧ row_stanzas r = s' ∧
        scan_step allow T E now st i raw
        = ok (mkScan (results st) (toInsert st ++ [(i, r)]) (acceptedNames st ++ [n])))) ∧
  (∀ E db_insert now q body payload i mid raw sn ms stz n m s,
     payload_of body = Some payload → payload !! i = Some raw →
     scan_from (allowSimilar_of q) (similarity_of q) E now 0 (take i payload) empty_scan
       = ok mid →
     read_fields raw = ok (sn, ms, stz) → validate sn ms stz = Some (n, m, s) →
     blocked (allowSimilar_of q) (similarity_of q) E (acceptedNames mid) n = ok false →
     undecodable m ∨ undecodable s →
     bulk_songs (inr E) db_insert now q body = (RCaught SyntaxError, [EvSelectSongs])) ∧
  (∀ E db_insert now q body payload raw sn ms stz n m s,
     allowSimilar_of q = true → payload_of body = Some payload → raw ∈ payload →
     read_fields raw = ok (sn, ms, stz) → validate sn ms stz = Some (n, m, s) →
     undecodable m ∨ undecodable s →
     ∃ e, bulk_songs (inr E) db_insert now q body = (RCaught e, [EvSelectSongs])).
Proof.
  split; [|split; [|split; [|split]]].
  - intros allow T E now st i raw sn ms stz Hrf Hv.
    unfold scan_step. rewrite Hrf. cbn [res_bind]. by rewrite Hv.
  - intros allow T E now st i raw sn ms stz n m s Hrf Hv Hb.
    unfold scan_step. rewrite Hrf. cbn [res_bind]. rewrite Hv, Hb. done.
  - intros allow T E now st i raw sn ms stz n m s Hrf Hv Hb. split.
    + intros Hu. by apply (scan_step_undecodable allow T E now st i raw sn ms stz n m s).
    + intros Hm Hs.
      destruct (build_row_decodable now raw sn ms stz n m s Hrf Hm Hs)
        as (m' & s' & r & Hr & Hm' & Hs' & Hrn & Hrm & Hrs).
      exists m', s', r. split_and!; try done.
      unfold scan_step. rewrite Hrf. cbn [res_bind]. rewrite Hv, Hb. cbn [res_bind].
      by rewrite Hr.
  - intros E db_insert now q body payload i mid raw sn ms stz n m s
      Hp Hraw Hmid Hrf Hv Hb Hu.
    assert (Hil : i < length payload) by by eapply lookup_lt_Some.
    assert (Hscan : scan_from (allowSimilar_of q) (similarity_of q) E now 0 payload empty_scan
                    = inl SyntaxError).
    { rewrite <- (take_drop_middle payload i raw Hraw), scan_from_app_eq, Hmid.
      cbn [res_bind]. rewrite length_take, Nat.min_l by lia. simpl.
      by rewrite (scan_step_undecodable (allowSimilar_of q) (similarity_of q) E now mid i raw
                   sn ms stz n m s Hrf Hv Hb Hu). }
    unfold bulk_songs, bulk_try. rewrite Hp. cbv [M_bind emit lift M_ret].
    by rewrite Hscan.
  - intros E db_insert now q body payload raw sn ms stz n m s Hq Hp Hin Hrf Hv Hu.
    unfold bulk_songs, bulk_try. rewrite Hp. cbv [M_bind emit lift M_ret]. rewrite Hq.
    destruct (scan_from_throws true (similarity_of q) E now raw payload Hin
                (λ st j, ex_intro _ SyntaxError
                   (scan_step_undecodable true (similarity_of q) E now st j raw sn ms stz n m s Hrf Hv
                      (blocked_permissive _ _ _ _) Hu)) 0 empty_scan) as [e He].
    rewrite He. by exists e.
Qed.

Lemma undecodable_content_aborts_request_witness :
  bulk_songs (inr []) echo_insert "now" strict_default
    (JArr [song "Amazing Grace"; song_bad_main "How Great Thou Art"])
  = (RCaught SyntaxError, [EvSelectSongs]) ∧
  ∃ e, bulk_songs (inr []) echo_insert "now" permissive_default
         (JArr [song "Amazing Grace"; song_bad_main "How Great Thou Art"])
       = (RCaught e, [EvSelectSongs]).
Proof.
  split.
  - apply (proj1 (proj2 (proj2 (proj2 undecodable_content_aborts_request))))
      with (payload := [song "Amazing Grace"; song_bad_main "How Great Thou Art"])
           (i := 1) (mid := sample_scan) (raw := song_bad_main "How Great Thou Art")
           (sn := Some (JStr "How Great Thou Art")) (ms := Some (JStr "{verse: la"))
           (stz := Some sample_stanzas)
           (n := JStr "How Great Thou Art") (m := JStr "{verse: la") (s := sample_stanzas);
      [reflexivity | reflexivity | vm_compute; reflexivity | reflexivity | reflexivity
      | vm_compute; reflexivity |].
    left. exists "{verse: la"%string. split; [reflexivity|vm_compute; reflexivity].
  - apply (proj2 (proj2 (proj2 (proj2 undecodable_content_aborts_request))))
      with (payload := [song "Amazing Grace"; song_bad_main "How Great Thou Art"])
           (raw := song_bad_main "How Great Thou Art")
           (sn := Some (JStr "How Great Thou Art")) (ms := Some (JStr "{verse: la"))
           (stz := Some sample_stanzas)
           (n := JStr "How Great Thou Art") (m := JStr "{verse: la") (s := sample_stanzas);
      [reflexivity | reflexivity | right; left | reflexivity | reflexivity |].
    left. exists "{verse: la"%string. split; [reflexivity|vm_compute; reflexivity].
Defined.

(* ------------------------------------------------------------------ *)
(** ** POST /songs *)

Lemma validate_none_iff a b c :
  validate a b c = None ↔ truthy a && truthy b && truthy c = false.
Proof.
  unfold validate.
  destruct a as [a|], b as [b|], c as [c|]; simpl;
    try destruct (truthy_json a); try destruct (truthy_json b);
    try destruct (truthy_json c); simpl; split; done.
Qed.

(** POST /songs reads [song_name], [main_stanza] and [stanzas] only: when
    one of them is absent or falsy it answers 400 without touching the
    database (a record using [songName] or [mainStanza], which the bulk
    endpoint accepts, is rejected here). *)
Theorem create_song_rejects_missing_fields fetch ins now kvs :
  truthy (assoc kvs "song_name") && truthy (assoc kvs "main_stanza")
    && truthy (assoc kvs "stanzas") = false →
  create_song fetch ins now (JObj kvs) = (jsonError 400 "Missing required fields", []).
Proof.
  intros H. apply validate_none_iff in H.
  unfold create_song. cbn [read_song_body prop res_bind]. by rewrite H.
Qed.

Lemma create_song_rejects_missing_fields_witness :
  create_song (inr []) echo_insert_single "now"
    (JObj [("songName", JStr "Amazing Grace"); ("mainStanza", sample_main);
           ("stanzas", sample_stanzas)])
  = (jsonError 400 "Missing required fields", []).
Proof. apply create_song_rejects_missing_fields. reflexivity. Defined.

Lemma asObj_exn v e : asObj v = inl e → e = SyntaxError.
Proof. destruct v; simpl; try discriminate. destruct (JSON_parse _); congruence. Qed.

Lemma find_js_some_js {A} (p : A → exn + bool) l :
  match find_js p l with
  | inl e => some_js p l = inl e
  | inr None => some_js p l = ok false
  | inr (Some _) => some_js p l = ok true
  end.
Proof.
  induction l as [|x l IH]; simpl; [done|].
  destruct (p x) as [e|[]]; simpl; done.
Qed.

Lemma some_js_map {A B} (p : B → exn + bool) (f : A → B) l :
  some_js p (map f l) = some_js (λ x, p (f x)) l.
Proof. induction l as [|x l IH]; simpl; [done|]. by rewrite IH. Qed.

Lemma similarity_strict_default : similarity_of strict_default = JFin (8 # 10).
Proof. vm_compute. reflexivity. Qed.

(** The snapshot check of POST /songs, as the bulk endpoint's check. *)
Lemma create_song_check fetch_names sn :
  blocked false (similarity_of strict_default) (map snd fetch_names) [] sn
  = match find_js (λ song : Z * string, let* s := compare_js sn (JStr song.2) in
                                        ok (js_ge s (JFin (8 # 10)))) fetch_names with
    | inl e => inl e
    | inr None => ok false
    | inr (Some _) => ok true
    end.
Proof.
  rewrite similarity_strict_default. unfold blocked. cbn [negb].
  rewrite some_js_map. cbn [some_js].
  pose proof (find_js_some_js (λ song : Z * string, let* s := compare_js sn (JStr song.2) in
                                        ok (js_ge s (JFin (8 # 10)))) fetch_names) as H.
  destruct (find_js _ fetch_names) as [e|[x|]]; rewrite H; simpl; done.
Qed.

(** POST /songs refuses a name with 409 exactly when the bulk endpoint's
    strict check at its default threshold 0.8, against the same existing
    names and no earlier payload names, blocks it; the answer is then
    given after the select alone, with no insert. When that check throws
    (a non-string [song_name] and at least one existing song), POST /songs
    throws the same error out of the handler. *)
Theorem create_song_conflict_is_bulk_check ins now kvs allSongs sn ms stz :
  validate (assoc kvs "song_name") (assoc kvs "main_stanza") (assoc kvs "stanzas")
    = Some (sn, ms, stz) →
  (blocked false (similarity_of strict_default) (map snd allSongs) [] sn = ok true ↔
   create_song (inr allSongs) ins now (JObj kvs)
   = (jsonError 409 "A similar song already exists", [CSelectSongNames])) ∧
  (∀ e, blocked false (similarity_of strict_default) (map snd allSongs) [] sn = inl e →
   create_song (inr allSongs) ins now (JObj kvs) = (Escaped (exn_message e), [CSelectSongNames])).
Proof.
  intros Hv. rewrite create_song_check.
  unfold create_song. cbn [read_song_body prop res_bind]. rewrite Hv.
  destruct (find_js _ allSongs) as [e|[x|]].
  - split; [split; discriminate|]. intros e' He. by injection He as ->.
  - split; [done|]. intros e He. discriminate.
  - split; [|intros e He; discriminate]. split; [discriminate|].
    destruct (asObj ms) as [e|m]; [discriminate|].
    destruct (asObj stz) as [e|s]; [discriminate|].
    intros H. injection H as _ H. discriminate.
Qed.

Lemma create_song_conflict_is_bulk_check_witness :
  create_song (inr [(1%Z, "Amazing Grace")]) echo_insert_single "now" (song "Amazing Grase")
  = (jsonError 409 "A similar song already exists", [CSelectSongNames]).
Proof.
  apply (create_song_conflict_is_bulk_check echo_insert_single "now"
           [("song_name", JStr "Amazing Grase"); ("main_stanza", sample_main);
            ("stanzas", sample_stanzas)]
           [(1%Z, "Amazing Grace")] (JStr "Amazing Grase") sample_main sample_stanzas);
    [reflexivity | vm_compute; reflexivity].
Defined.

(** When the name passes the check, POST /songs decodes the content: an
    undecodable [main_stanza] or [stanzas] string throws a SyntaxError out
    of the handler after the select and before any insert; otherwise it
    inserts one row with the decoded content, both timestamps set to
    [now], [created_by] ["System"] and [last_updated_by] [""] (whatever the
    body holds for these), and answers 201 with the returned [song_id]. *)
Theorem create_song_inserts_system_row ins now kvs allSongs sn ms stz :
  validate (assoc kvs "song_name") (assoc kvs "main_stanza") (assoc kvs "stanzas")
    = Some (sn, ms, stz) →
  blocked false (similarity_of strict_default) (map snd allSongs) [] sn = ok false →
  ((undecodable ms ∨ undecodable stz) →
   create_song (inr allSongs) ins now (JObj kvs) = (Escaped "SyntaxError", [CSelectSongNames])) ∧
  (∀ m s, asObj ms = ok m → asObj stz = ok s →
   let r := mkRow sn m s (JStr now) (JStr now) (JStr "System") (JStr "") in
   create_song (inr allSongs) ins now (JObj kvs)
   = (match ins r with
      | inl msg => jsonError 500 (sb_message msg)
      | inr id => Reply 201 (JObj [("song_id", JNum (inject_Z id))])
      end, [CSelectSongNames; CInsertSong r])).
Proof.
  intros Hv Hb. rewrite create_song_check in Hb.
  unfold create_song. cbn [read_song_body prop res_bind]. rewrite Hv.
  destruct (find_js _ allSongs) as [e|[x|]]; try discriminate.
  split.
  - unfold undecodable. intros [(t & -> & Ht)|(t & -> & Ht)]; simpl; rewrite Ht; [done|].
    destruct (asObj ms) as [e|] eqn:E; [|done].
    by rewrite (asObj_exn _ _ E).
  - intros m s -> ->. done.
Qed.

Lemma create_song_inserts_system_row_witness :
  create_song (inr [(1%Z, "Amazing Grace")]) echo_insert_single "now"
    (JObj [("song_name", JStr "Be Thou My Vision"); ("main_stanza", sample_main);
           ("stanzas", sample_stanzas); ("created_by", JStr "Alice")])
  = (Reply 201 (JObj [("song_id", JNum (inject_Z 7))]),
     [CSelectSongNames;
      CInsertSong (mkRow (JStr "Be Thou My Vision") sample_main sample_stanzas
                     (JStr "now") (JStr "now") (JStr "System") (JStr ""))]).
Proof.
  apply (create_song_inserts_system_row echo_insert_single "now"
           [("song_name", JStr "Be Thou My Vision"); ("main_stanza", sample_main);
            ("stanzas", sample_stanzas); ("created_by", JStr "Alice")]
           [(1%Z, "Amazing Grace")] (JStr "Be Thou My Vision") sample_main sample_stanzas);
    [reflexivity | vm_compute; reflexivity | reflexivity | reflexivity].
Defined.

(* ------------------------------------------------------------------ *)
(** ** PUT /songs/:id *)

Lemma parse_if_string_inl v e :
  parse_if_string v = inl e → e = SyntaxError ∧ ∃ t, v = Some (JStr t) ∧ JSON_parse t = None.
Proof.
  destruct v as [[]|]; simpl; try discriminate.
  destruct (JSON_parse _) eqn:E; [discriminate|]. intros [= <-]. eauto.
Qed.

Lemma parse_if_string_undefined v m :
  parse_if_string v = ok m → (m = None ↔ v = None).
Proof.
  destruct v as [[]|]; simpl; try (intros [= <-]; done).
  destruct (JSON_parse _); intros [= <-]; done.
Qed.

(** PUT /songs/:id either throws a SyntaxError out of the handler, before
    any database call, because [main_stanza] or [stanzas] is a string that
    does not parse as JSON; or it issues one update of the song [id]. That
    update always sets [last_updated_by], to the body's value when it is
    truthy and to ["System"] otherwise; it sends [song_name] as given and
    sends [song_name], [main_stanza] and [stanzas] exactly when the body
    has them; and the answer is 404 when the update matched no row. *)
Theorem update_song_fields upd id kvs :
  (update_song upd id (JObj kvs) = (Escaped "SyntaxError", []) ∧
   ∃ k t, k ∈ ["main_stanza"; "stanzas"] ∧ assoc kvs k = Some (JStr t) ∧ JSON_parse t = None) ∨
  (∃ r fields,
     update_song upd id (JObj kvs) = (r, [CUpdateSong id fields]) ∧
     mget fields "last_updated_by"
       = Some (match assoc kvs "last_updated_by" with
               | Some v => if truthy_json v then v else JStr "System"
               | None => JStr "System"
               end) ∧
     mget fields "song_name" = assoc kvs "song_name" ∧
     (mget fields "main_stanza" = None ↔ assoc kvs "main_stanza" = None) ∧
     (mget fields "stanzas" = None ↔ assoc kvs "stanzas" = None) ∧
     (upd fields = inr [] → r = jsonError 404 "Song not found")).
Proof.
  unfold update_song. cbn [prop res_bind].
  destruct (parse_if_string (assoc kvs "main_stanza")) as [e|m] eqn:Em.
  { left. apply parse_if_string_inl in Em as [-> (t & Ht & Hp)].
    split; [done|]. exists "main_stanza", t. split; [set_solver|done]. }
  destruct (parse_if_string (assoc kvs "stanzas")) as [e|s] eqn:Es.
  { left. apply parse_if_string_inl in Es as [-> (t & Ht & Hp)].
    split; [done|]. exists "stanzas", t. split; [set_solver|done]. }
  right. cbn [res_bind].
  apply parse_if_string_undefined in Em, Es.
  eexists _, _. split; [reflexivity|]. rewrite <- Em, <- Es.
  unfold or_else, truthy.
  destruct (assoc kvs "song_name"), m, s, (assoc kvs "last_updated_by") as [v|];
    try destruct (truthy_json v); simpl;
    (split; [done|]); (split; [done|]);
    (split; [split; done|]); (split; [split; done|]);
    intros ->; done.
Qed.

(* ------------------------------------------------------------------ *)
(** ** parseInt and the paging of GET /songs *)

Lemma digit_not_ws c : is_digit c = true → is_str_ws c = false.
Proof.
  unfold is_digit, is_str_ws. set (n := nat_of_ascii c).
  intros H. apply andb_prop in H as [H1 H2].
  apply Nat.leb_le in H1, H2.
  assert ((n <=? 13) = false) as -> by (apply Nat.leb_gt; lia).
  assert ((n =? 32) = false) as -> by (apply Nat.eqb_neq; lia).
  by rewrite andb_false_r.
Qed.

Lemma digit_not_letter c :
  is_digit c = true → Ascii.eqb "x" c = false ∧ Ascii.eqb "X" c = false.
Proof.
  intros H. split.
  - destruct (Ascii.eqb_spec "x" c) as [<-|]; [discriminate|done].
  - destruct (Ascii.eqb_spec "X" c) as [<-|]; [discriminate|done].
Qed.

Lemma digit_no_hex_prefix c ds :
  is_digit c = true → Forall (λ c, is_digit c = true) ds →
  starts_with "0x" (String c (String.string_of_list_ascii ds))
  || starts_with "0X" (String c (String.string_of_list_ascii ds)) = false.
Proof.
  intros _ Hds. destruct ds as [|c2 ds]; cbn [String.string_of_list_ascii starts_with].
  - by rewrite !andb_false_r.
  - apply Forall_cons in Hds as [H2 _].
    destruct (digit_not_letter c2 H2) as [-> ->]. by rewrite !andb_false_r.
Qed.

Lemma span_radix_digits ds :
  Forall (λ c, is_digit c = true) ds →
  span_radix 10 (String.string_of_list_ascii ds) = map digit_val ds.
Proof.
  induction 1 as [|c ds Hc _ IH]; simpl; [done|].
  unfold radix_digit, hex_digit_val. unfold is_digit in Hc.
  set (n := nat_of_ascii c) in *. rewrite Hc.
  assert ((Z.of_nat (n - 48) <? 10)%Z = true) as ->.
  { apply andb_prop in Hc as [_ H2]. apply Nat.leb_le in H2. apply Z.ltb_lt. lia. }
  by rewrite IH.
Qed.

Lemma fold_digits ds a :
  fold_left (λ acc d, 10 * acc + d)%Z (map digit_val ds) a
  = fold_left (λ acc c, 10 * acc + digit_val c)%Z ds a.
Proof. revert a. induction ds as [|c ds IH]; intros a; simpl; [done|]. apply IH. Qed.

Lemma digits_value_nonneg ds : (0 ≤ digits_value ds)%Z.
Proof.
  unfold digits_value.
  assert (∀ a, 0 ≤ a → 0 ≤ fold_left (λ acc c, 10 * acc + digit_val c) ds a)%Z as H.
  { induction ds as [|c ds IH]; intros a Ha; simpl; [done|].
    apply IH. unfold digit_val. lia. }
  by apply H.
Qed.

Lemma sign_of_digit c r :
  is_digit c = true →
  match String c r with
  | String "-" r => ((-1)%Z, r)
  | String "+" r => (1%Z, r)
  | _ => (1%Z, String c r)
  end = (1%Z, String c r).
Proof.
  intros H. destruct c as [[] [] [] [] [] [] [] []]; try reflexivity;
    vm_compute in H; discriminate.
Qed.

(** parseInt of a decimal numeral, and of its negation. *)
Lemma parseInt_decimal ds :
  ds ≠ [] → Forall (λ c, is_digit c = true) ds → (digits_value ds < 2 ^ 53)%Z →
  parseInt (String.string_of_list_ascii ds) = JFin (inject_Z (digits_value ds)) ∧
  parseInt (String "-" (String.string_of_list_ascii ds)) = JFin (inject_Z (- digits_value ds)).
Proof.
  intros Hne Hds Hlt. pose proof (digits_value_nonneg ds) as Hnn.
  destruct ds as [|c rest]; [done|].
  pose proof Hds as Hds'. apply Forall_cons in Hds' as [Hc Hrest].
  pose proof (span_radix_digits _ Hds) as Hsp.
  cbn [String.string_of_list_ascii map] in Hsp.
  unfold parseInt. cbn [String.string_of_list_ascii trim_start]. rewrite (digit_not_ws c Hc).
  split.
  - rewrite (sign_of_digit _ _ Hc), (digit_no_hex_prefix c rest Hc Hrest).
    cbv beta iota zeta. rewrite Hsp.
    change (digit_val c :: map digit_val rest) with (map digit_val (c :: rest)).
    rewrite fold_digits, Z.mul_1_l. apply double_of_Z_exact. unfold digits_value in *. lia.
  - change (is_str_ws "-") with false. cbv beta iota zeta. rewrite (digit_no_hex_prefix c rest Hc Hrest).
    cbv beta iota zeta. rewrite Hsp.
    change (digit_val c :: map digit_val rest) with (map digit_val (c :: rest)).
    rewrite fold_digits. unfold digits_value in *.
    replace (-1 * fold_left (λ acc d, 10 * acc + d) (map digit_val (c :: rest)) 0)%Z
      with (- fold_left (λ acc d, 10 * acc + d) (map digit_val (c :: rest)) 0)%Z by lia.
    apply double_of_Z_exact. lia.
Qed.

Lemma Qmin_inject_Z a b : Qmin (inject_Z a) (inject_Z b) = inject_Z (Z.min a b).
Proof.
  unfold Qmin, GenericMinMax.gmin. unfold Qcompare, inject_Z; simpl.
  rewrite !Z.mul_1_r. destruct (Z.compare_spec a b).
  - subst. by rewrite Z.min_id.
  - by rewrite Z.min_l by lia.
  - by rewrite Z.min_r by lia.
Qed.

Lemma Qmax_inject_Z a b : Qmax (inject_Z a) (inject_Z b) = inject_Z (Z.max a b).
Proof.
  unfold Qmax, GenericMinMax.gmax. unfold Qcompare, inject_Z; simpl.
  rewrite !Z.mul_1_r. destruct (Z.compare_spec a b).
  - subst. by rewrite Z.max_id.
  - by rewrite Z.max_r by lia.
  - by rewrite Z.max_l by lia.
Qed.

(** GET /songs never asks for more than 5000 rows from a finite page
    size, nor starts before row 0 from a finite offset. Besides finite
    values, the page size can be NaN (a [limit] with no leading integer)
    or -Infinity (a numeral of at least [2^1024] after a minus sign), and
    the offset NaN or +Infinity (a numeral of at least [2^1024]).
    Without the parameters the page is rows 0 to 999. *)
Theorem page_window_bounds limit offset :
  (page_size limit = JNaN ∨ page_size limit = JNegInf ∨
   ∃ x, page_size limit = JFin x ∧ (x <= 5000)%Q) ∧
  (page_offset offset = JNaN ∨ page_offset offset = JPosInf ∨
   ∃ x, page_offset offset = JFin x ∧ (0 <= x)%Q) ∧
  page_size None = JFin 1000 ∧ page_offset None = JFin 0.
Proof.
  unfold page_size, page_offset. split; [|split; [|split]].
  - destruct (parseInt (default "1000" limit)) as [| | |q]; cbn [js_min].
    + by left.
    + by right; left.
    + right; right. eexists. split; [reflexivity|]. apply Qle_refl.
    + right; right. eexists. split; [reflexivity|]. apply Q.le_min_r.
  - destruct (parseInt (default "0" offset)) as [| | |q]; cbn [js_max].
    + by left.
    + right; right. eexists. split; [reflexivity|]. apply Qle_refl.
    + by right; left.
    + right; right. eexists. split; [reflexivity|]. apply Q.le_max_r.
  - vm_compute. reflexivity.
  - vm_compute. reflexivity.
Qed.

(** For a decimal [limit] or [offset] [n] below [2^53], GET /songs uses a
    page size of [min(n, 5000)] and an offset of [n]; for [-n] the offset
    is clamped to 0 but the page size stays [-n], since the size has no
    lower bound. (From [2^53] on parseInt rounds to a double.) *)
Theorem page_window_decimal ds :
  ds ≠ [] → Forall (λ c, is_digit c = true) ds → (digits_value ds < 2 ^ 53)%Z →
  page_size (Some (String.string_of_list_ascii ds)) = JFin (inject_Z (Z.min (digits_value ds) 5000)) ∧
  page_offset (Some (String.string_of_list_ascii ds)) = JFin (inject_Z (digits_value ds)) ∧
  page_size (Some (String "-" (String.string_of_list_ascii ds))) = JFin (inject_Z (- digits_value ds)) ∧
  page_offset (Some (String "-" (String.string_of_list_ascii ds))) = JFin 0.
Proof.
  intros Hne Hds Hlt. destruct (parseInt_decimal ds Hne Hds Hlt) as [Hp Hn].
  pose proof (digits_value_nonneg ds).
  unfold page_size, page_offset. cbn [from_option id]. rewrite Hp, Hn. cbn [js_min js_max].
  change 5000%Q with (inject_Z 5000). change 0%Q with (inject_Z 0).
  rewrite !Qmin_inject_Z, !Qmax_inject_Z.
  rewrite (Z.max_l (digits_value ds)), (Z.min_l (- digits_value ds)), (Z.max_r (- digits_value ds))
    by lia.
  done.
Qed.

Lemma page_window_decimal_witness :
  page_size (Some (String.string_of_list_ascii (String.list_ascii_of_string "250")))
    = JFin (inject_Z (Z.min (digits_value (String.list_ascii_of_string "250")) 5000)) ∧
  page_offset (Some (String.string_of_list_ascii (String.list_ascii_of_string "250")))
    = JFin (inject_Z (digits_value (String.list_ascii_of_string "250"))) ∧
  page_size (Some (String "-" (String.string_of_list_ascii (String.list_ascii_of_string "250"))))
    = JFin (inject_Z (- digits_value (String.list_ascii_of_string "250"))) ∧
  page_offset (Some (String "-" (String.string_of_list_ascii (String.list_ascii_of_string "250"))))
    = JFin 0.
Proof. apply page_window_decimal; [discriminate | repeat constructor | vm_compute; reflexivity]. Defined.

(** GET /presentations/older reads [hours] with parseInt and replaces a
    falsy result by 48: without [hours], or with a decimal [hours] of
    value 0, the window is 48 hours; another decimal [hours] below [2^53]
    is used as it is. *)
Theorem older_hours_decimal ds :
  ds ≠ [] → Forall (λ c, is_digit c = true) ds → (digits_value ds < 2 ^ 53)%Z →
  older_hours None = JFin 48 ∧
  older_hours (Some (String.string_of_list_ascii ds))
  = if (digits_value ds =? 0)%Z then JFin 48 else JFin (inject_Z (digits_value ds)).
Proof.
  intros Hne Hds Hlt. destruct (parseInt_decimal ds Hne Hds Hlt) as [Hp _].
  split; [vm_compute; reflexivity|].
  unfold older_hours. cbn [from_option id]. rewrite Hp. cbn [num_truthy].
  destruct (Z.eqb_spec (digits_value ds) 0) as [->|Hz]; [reflexivity|].
  assert (Qeq_bool (inject_Z (digits_value ds)) 0 = false) as ->.
  { apply not_true_iff_false. intros Hq. apply Qeq_bool_iff in Hq.
    apply Hz. change 0%Q with (inject_Z 0) in Hq. by apply inject_Z_injective. }
  reflexivity.
Qed.

Lemma older_hours_decimal_witness :
  (older_hours None = JFin 48 ∧
   older_hours (Some (String.string_of_list_ascii (String.list_ascii_of_string "00")))
   = if (digits_value (String.list_ascii_of_string "00") =? 0)%Z then JFin 48
     else JFin (inject_Z (digits_value (String.list_ascii_of_string "00")))) ∧
  (older_hours None = JFin 48 ∧
   older_hours (Some (String.string_of_list_ascii (String.list_ascii_of_string "72")))
   = if (digits_value (String.list_ascii_of_string "72") =? 0)%Z then JFin 48
     else JFin (inject_Z (digits_value (String.list_ascii_of_string "72")))).
Proof.
  split; apply older_hours_decimal;
    [discriminate | repeat constructor | vm_compute; reflexivity
    |discriminate | repeat constructor | vm_compute; reflexivity].
Defined.

(* ------------------------------------------------------------------ *)
(** ** POST /psalms/bulk *)

Lemma psalm_complete_total v : ∃ b, psalm_complete v = ok b.
Proof. unfold psalm_complete. destruct v; simpl; repeat case_match; eauto. Qed.

Lemma psalm_complete_obj v : psalm_complete v = ok true → ∃ kvs, v = JObj kvs.
Proof. unfold psalm_complete. destruct v; simpl; repeat case_match; by eauto. Qed.

Lemma filter_js_total {A} (p : A → exn + bool) l :
  (∀ x, ∃ b, p x = ok b) →
  filter_js p l = ok (List.filter (λ x, match p x with inr b => b | inl _ => false end) l).
Proof.
  intros Hp. induction l as [|x l IH]; simpl; [done|].
  destruct (Hp x) as [b ->]. cbn [res_bind]. rewrite IH. done.
Qed.

Lemma psalm_rows vs :
  let kept := List.filter (λ v, match psalm_complete v with inr b => b | inl _ => false end) vs in
  ∃ rows, map_js psalm_row kept = ok rows ∧
    Forall2 (λ v r, ∃ kvs, v = JObj kvs ∧
               r = JObj (defined_kvs [("chapter", assoc kvs "chapter"); ("verse", assoc kvs "verse");
                                      ("telugu", assoc kvs "telugu"); ("english", assoc kvs "english")]))
      kept rows.
Proof.
  induction vs as [|v vs IH]; simpl; [by exists []|].
  destruct IH as (rows & Hm & Hf).
  destruct (psalm_complete v) as [e|[]] eqn:Hc; [eauto|..|eauto].
  destruct (psalm_complete_obj v Hc) as [kvs ->].
  eexists. split; [cbn [map_js psalm_row prop res_bind]; rewrite Hm; reflexivity|].
  constructor; [eauto|done].
Qed.

(** POST /psalms/bulk never throws on a non-empty array: the completeness
    test of each element returns a boolean. The handler inserts, in one
    call, the elements whose [chapter], [verse], [telugu] and [english]
    are all truthy, in their order, each projected on these four keys
    (a non-object element is never kept); it reports [inserted] as the
    number of rows sent. *)
Theorem psalms_bulk_inserts_complete_verses ins vs :
  vs ≠ [] →
  (∀ v, ∃ b, psalm_complete v = ok b) ∧
  let kept := List.filter (λ v, match psalm_complete v with inr b => b | inl _ => false end) vs in
  ∃ rows,
    Forall2 (λ v r, ∃ kvs, v = JObj kvs ∧
               r = JObj (defined_kvs [("chapter", assoc kvs "chapter"); ("verse", assoc kvs "verse");
                                      ("telugu", assoc kvs "telugu"); ("english", assoc kvs "english")]))
      kept rows ∧
    psalms_bulk ins (JArr vs)
    = (match ins rows with
       | Some msg => jsonError 500 (sb_message msg)
       | None => Reply 201 (JObj [("message", JStr "Psalms inserted successfully.");
                                  ("inserted", JNum (inject_Z (Z.of_nat (length kept))))])
       end, [CInsertPsalms rows]).
Proof.
  intros Hne. destruct vs as [|x xs]; [done|].
  split; [apply psalm_complete_total|]. cbv zeta.
  destruct (psalm_rows (x :: xs)) as (rows & Hm & Hf). exists rows. split; [done|].
  unfold psalms_bulk. rewrite (filter_js_total _ _ psalm_complete_total). cbn [res_bind].
  rewrite Hm. by rewrite (Forall2_length _ _ _ Hf).
Qed.

Lemma psalms_bulk_inserts_complete_verses_witness :
  (∀ v, ∃ b, psalm_complete v = ok b) ∧
  let kept := List.filter (λ v, match psalm_complete v with inr b => b | inl _ => false end)
                sample_psalms in
  ∃ rows,
    Forall2 (λ v r, ∃ kvs, v = JObj kvs ∧
               r = JObj (defined_kvs [("chapter", assoc kvs "chapter"); ("verse", assoc kvs "verse");
                                      ("telugu", assoc kvs "telugu"); ("english", assoc kvs "english")]))
      kept rows ∧
    psalms_bulk (λ _, None) (JArr sample_psalms)
    = (match (λ _ : list json, None) rows with
       | Some msg => jsonError 500 (sb_message msg)
       | None => Reply 201 (JObj [("message", JStr "Psalms inserted successfully.");
                                  ("inserted", JNum (inject_Z (Z.of_nat (length kept))))])
       end, [CInsertPsalms rows]).
Proof. apply (psalms_bulk_inserts_complete_verses (λ _, None) sample_psalms). discriminate. Defined.

(* ------------------------------------------------------------------ *)
(** ** deleteOldPresentationsCompletely *)

Lemma mget_None {A} (m : list (string * A)) k : mget m k = None ↔ k ∉ map fst m.
Proof.
  induction m as [|[k' v'] m IH]; simpl; [set_solver|].
  destruct (String.eqb_spec k k') as [->|Hne]; [set_solver|].
  rewrite IH. set_solver.
Qed.

Lemma mget_Some_in {A} (m : list (string * A)) k v : mget m k = Some v → (k, v) ∈ m.
Proof.
  induction m as [|[k' v'] m IH]; simpl; [done|].
  destruct (String.eqb_spec k k') as [->|Hne]; [intros [= ->]; left|intros; right; auto].
Qed.

Lemma mset_keys {A} (m : list (string * A)) k v :
  map fst (mset m k v) = if decide (k ∈ map fst m) then map fst m else map fst m ++ [k].
Proof.
  induction m as [|[k' v'] m IH]; simpl; [by try rewrite decide_False by set_solver|].
  destruct (String.eqb_spec k k') as [->|Hne].
  - by rewrite decide_True by set_solver.
  - simpl. rewrite IH. destruct (decide (k ∈ map fst m)).
    + by rewrite decide_True by set_solver.
    + by rewrite decide_False by set_solver.
Qed.

Lemma mset_elem {A} (m : list (string * A)) k v g : g ∈ mset m k v → g ∈ m ∨ g = (k, v).
Proof.
  induction m as [|[k' v'] m IH]; simpl; [set_solver|].
  destruct (String.eqb_spec k k') as [->|Hne]; [set_solver|].
  rewrite elem_of_cons. intros [->|H]; [set_solver|]. destruct (IH H); set_solver.
Qed.

Lemma mset_inv {A} (seen : list (string * A)) groups k v :
  NoDup (map fst groups) → (∀ n, n ∈ map fst groups ↔ n ∈ map fst seen) →
  NoDup (map fst (mset groups k v)) ∧
  (∀ n, n ∈ map fst (mset groups k v) ↔ n ∈ map fst (seen ++ [(k, v)])).
Proof.
  intros Hnd Hk. rewrite mset_keys, map_app. simpl.
  destruct (decide (k ∈ map fst groups)) as [Hin|Hin].
  - split; [done|]. intros n. rewrite elem_of_app, list_elem_of_singleton, <- Hk.
    split; [auto|]. intros [?| ->]; done.
  - split.
    + apply NoDup_app. split; [done|]. split; [|apply NoDup_singleton].
      intros x Hx ->%list_elem_of_singleton. done.
    + intros n. rewrite !elem_of_app, !list_elem_of_singleton, Hk. done.
Qed.

(** The fold of [cleanup_groups] keeps one entry per name seen, each
    holding the date of a row of that name. *)
Lemma cleanup_groups_inv date_of data :
  NoDup (map fst (cleanup_groups date_of data)) ∧
  (∀ n, n ∈ map fst (cleanup_groups date_of data) ↔ n ∈ map fst data) ∧
  (∀ g, g ∈ cleanup_groups date_of data → (g.1, g.2) ∈ data).
Proof.
  unfold cleanup_groups.
  enough (∀ seen groups,
    NoDup (map fst groups) → (∀ n, n ∈ map fst groups ↔ n ∈ map fst seen) →
    (∀ g, g ∈ groups → (g.1, g.2) ∈ seen) →
    let g' := fold_left (λ groups r,
      match mget groups r.1 with
      | None => mset groups r.1 r.2
      | Some cur =>
          if String.eqb cur "" || js_gt (date_of r.2) (date_of cur)
          then mset groups r.1 r.2 else groups
      end) data groups in
    NoDup (map fst g') ∧ (∀ n, n ∈ map fst g' ↔ n ∈ map fst (seen ++ data)) ∧
    (∀ g, g ∈ g' → (g.1, g.2) ∈ seen ++ data)) as H.
  { apply (H []); simpl; [constructor|set_solver..]. }
  induction data as [|[k v] data IH]; intros seen groups Hnd Hk Hv; simpl.
  { rewrite app_nil_r. done. }
  replace (seen ++ (k, v) :: data) with ((seen ++ [(k, v)]) ++ data)
    by by rewrite <- app_assoc.
  apply IH.
  - destruct (mget groups k); [case_match|]; try apply (mset_inv seen); done.
  - destruct (mget groups k) as [cur|] eqn:Hg; [case_match|];
      try apply (mset_inv seen); try done.
    intros n. rewrite Hk, map_app, elem_of_app. simpl. rewrite list_elem_of_singleton.
    split; [auto|]. intros [?| ->]; [done|].
    apply Hk. apply mget_Some_in in Hg. apply list_elem_of_fmap. by exists (k, cur).
  - assert (∀ g, g ∈ mset groups k v → (g.1, g.2) ∈ seen ++ [(k, v)]) as Hm.
    { intros g [Hg| ->]%mset_elem; [|set_solver]. apply elem_of_app. left. by apply Hv. }
    destruct (mget groups k); [case_match|]; try done.
    intros g Hg. apply elem_of_app. left. by apply Hv.
Qed.

(** A run of the cleanup in which the select returns rows all dated
    before the cutoff, as its filter asks: it then deletes every
    presentation that has such a row, each name once, in one call, and
    makes no delete call when there is no row. A presentation with one
    old slide is so deleted as a whole, whatever newer slides it has. *)
Theorem cleanup_deletes_whole_presentations date_of cutoff data :
  (∀ r, r ∈ data → js_lt (date_of r.2) (date_of cutoff) = true) →
  ∃ names,
    deleteOldPresentationsCompletely date_of cutoff (inr data)
    = CSelectPresentationsBefore cutoff ::
      match data with [] => [] | _ :: _ => [CDeletePresentations names] end ∧
    NoDup names ∧ (∀ n, n ∈ names ↔ ∃ c, (n, c) ∈ data).
Proof.
  intros Hlt. destruct (cleanup_groups_inv date_of data) as (Hnd & Hk & Hv).
  exists (map fst (cleanup_groups date_of data)).
  unfold deleteOldPresentationsCompletely.
  rewrite filter_all by (intros g Hg; apply (Hlt (g.1, g.2)), Hv, Hg).
  split; [|split; [done|]].
  - destruct data as [|r data]; [reflexivity|].
    destruct (map fst (cleanup_groups date_of (r :: data))) eqn:E; [|done].
    exfalso. apply (not_elem_of_nil r.1). apply Hk. simpl. set_solver.
  - intros n. rewrite Hk, list_elem_of_fmap. split.
    + intros ([n' c] & -> & H). by exists c.
    + intros [c H]. by exists (n, c).
Qed.

Lemma cleanup_deletes_whole_presentations_witness :
  ∃ names,
    deleteOldPresentationsCompletely sample_date "2025-01-03" (inr sample_slides)
    = CSelectPresentationsBefore "2025-01-03" ::
      match sample_slides with [] => [] | _ :: _ => [CDeletePresentations names] end ∧
    NoDup names ∧ (∀ n, n ∈ names ↔ ∃ c, (n, c) ∈ sample_slides).
Proof.
  apply cleanup_deletes_whole_presentations.
  intros r Hr. repeat (apply elem_of_cons in Hr as [->|Hr]; [reflexivity|]).
  by apply not_elem_of_nil in Hr.
Defined.

(* ------------------------------------------------------------------ *)
(** ** GET /presentations/older *)



Lemma existsb_eqb_elem k (l : list string) : existsb (String.eqb k) l = true ↔ k ∈ l.
Proof.
  induction l as [|k' l IH]; simpl; [split; [discriminate|set_solver]|].
  rewrite orb_true_iff, String.eqb_eq, IH, elem_of_cons. done.
Qed.

Lemma mset_absent {A} (m : list (string * A)) k v : mget m k = None → mset m k v = m ++ [(k, v)].
Proof.
  induction m as [|[k' v'] m IH]; simpl; [done|].
  destruct (String.eqb k k'); [discriminate|]. intros H. by rewrite IH.
Qed.

Lemma mset_elem_nodup {A} (m : list (string * A)) k v g :
  NoDup (map fst m) → g ∈ mset m k v → (g ∈ m ∧ g.1 ≠ k) ∨ g = (k, v).
Proof.
  induction m as [|[k' v'] m IH]; simpl; intros Hnd; [set_solver|].
  apply NoDup_cons in Hnd as [Hk' Hnd].
  destruct (String.eqb_spec k k') as [->|Hne].
  - rewrite elem_of_cons. intros [->|Hg]; [by right|left].
    split; [by right|]. intros Heq. apply Hk'. apply list_elem_of_fmap. exists g.
    split; [done|done].
  - rewrite elem_of_cons. intros [->|Hg]; [left; split; [left|done]|].
    destruct (IH Hnd Hg) as [[? ?]|?]; [left; split; [by right|done]|by right].
Qed.

Lemma keys_functional {A} (m : list (string * A)) k a b :
  NoDup (map fst m) → (k, a) ∈ m → (k, b) ∈ m → a = b.
Proof.
  induction m as [|[k' v'] m IH]; simpl; intros Hnd Ha Hb; [set_solver|].
  apply NoDup_cons in Hnd as [Hk' Hnd].
  apply elem_of_cons in Ha as [Ha|Ha], Hb as [Hb|Hb].
  - congruence.
  - injection Ha as -> _. exfalso. apply Hk'. apply list_elem_of_fmap. by exists (k', b).
  - injection Hb as -> _. exfalso. apply Hk'. apply list_elem_of_fmap. by exists (k', a).
  - by apply IH.
Qed.

(** The fold of [older_groups]: one entry per name seen that is not a
    property of [Object.prototype], holding the date of a row of that
    name; with non-empty valid dates, the earliest one. *)
Lemma older_groups_inv date_of data :
  let G := older_groups date_of data in
  NoDup (map fst G) ∧
  (∀ n, n ∈ map fst G ↔ n ∈ map fst data ∧ n ∉ proto_keys) ∧
  (∀ g, g ∈ G → g ∈ data) ∧
  ((∀ r, r ∈ data → r.2 ≠ "" ∧ ∃ q, date_of r.2 = JFin q) →
   ∀ g c' x y, g ∈ G → (g.1, c') ∈ data →
   date_of g.2 = JFin x → date_of c' = JFin y → (x <= y)%Q).
Proof.
  unfold older_groups.
  set (F := λ (grouped : list (string * string)) (r : string * string),
    match mget grouped r.1 with
    | Some cur =>
        if String.eqb cur "" || js_lt (date_of r.2) (date_of cur)
        then mset grouped r.1 r.2 else grouped
    | None =>
        if existsb (String.eqb r.1) proto_keys then grouped
        else mset grouped r.1 r.2
    end).
  enough (∀ seen G,
    NoDup (map fst G) →
    (∀ n, n ∈ map fst G ↔ n ∈ map fst seen ∧ n ∉ proto_keys) →
    (∀ g, g ∈ G → g ∈ seen) →
    ((∀ r, r ∈ seen ++ data → r.2 ≠ "" ∧ ∃ q, date_of r.2 = JFin q) →
     ∀ g c' x y, g ∈ G → (g.1, c') ∈ seen →
     date_of g.2 = JFin x → date_of c' = JFin y → (x <= y)%Q) →
    let G' := fold_left F data G in
    NoDup (map fst G') ∧
    (∀ n, n ∈ map fst G' ↔ n ∈ map fst (seen ++ data) ∧ n ∉ proto_keys) ∧
    (∀ g, g ∈ G' → g ∈ seen ++ data) ∧
    ((∀ r, r ∈ seen ++ data → r.2 ≠ "" ∧ ∃ q, date_of r.2 = JFin q) →
     ∀ g c' x y, g ∈ G' → (g.1, c') ∈ seen ++ data →
     date_of g.2 = JFin x → date_of c' = JFin y → (x <= y)%Q)) as H.
  { apply (H []); simpl; [constructor|set_solver..]. }
  induction data as [|[k v] data IH]; intros seen G Hnd Hk Hv Hmin; simpl.
  { rewrite !app_nil_r in *. cbv zeta. by split_and!. }
  replace (seen ++ (k, v) :: data) with ((seen ++ [(k, v)]) ++ data)
    by by rewrite <- app_assoc.
  apply IH; unfold F; cbn [fst snd].
  - destruct (mget G k) as [cur|] eqn:Hg; repeat case_match; try done.
    + rewrite mset_keys, decide_True; [done|].
      apply list_elem_of_fmap. exists (k, cur). split; [done|]. by apply mget_Some_in.
    + rewrite (mset_absent _ _ _ Hg), map_app. cbn [map fst]. apply NoDup_app.
      split; [done|]. split; [|apply NoDup_singleton].
      intros n Hn ->%list_elem_of_singleton. by apply mget_None in Hg.
  - intros n. rewrite map_app, elem_of_app. cbn [map fst]. rewrite list_elem_of_singleton.
    destruct (mget G k) as [cur|] eqn:Hg.
    + assert (k ∈ map fst G) as HkG.
      { apply list_elem_of_fmap. exists (k, cur). split; [done|]. by apply mget_Some_in. }
      assert (map fst (mset G k v) = map fst G) as Hks by by rewrite mset_keys, decide_True.
      case_match; [rewrite Hks|]; rewrite Hk;
        (split; [intros [? ?]; auto|]); (intros [[?| ->] ?]; [done|]); apply Hk; done.
    + apply mget_None in Hg. destruct (existsb (String.eqb k) proto_keys) eqn:Hp; cbv iota.
      * apply existsb_eqb_elem in Hp. rewrite Hk.
        split; [intros [? ?]; auto|]. intros [[?| ->] ?]; done.
      * rewrite mset_keys, decide_False by done.
        rewrite elem_of_app, list_elem_of_singleton, Hk.
        assert (k ∉ proto_keys) by (intros Hin; apply existsb_eqb_elem in Hin; congruence).
        split; [intros [[? ?]| ->]; auto|]. intros [[?| ->] ?]; auto.
  - assert (∀ g, g ∈ mset G k v → g ∈ seen ++ [(k, v)]) as Hm.
    { intros g [Hg| ->]%mset_elem; [|set_solver]. apply elem_of_app. left. by apply Hv. }
    destruct (mget G k); repeat case_match; try done;
      intros g Hg; apply elem_of_app; left; by apply Hv.
  - rewrite <- app_assoc. intros Hfin g c' x y HgG Hc' Hx Hy.
    specialize (Hmin Hfin).
    destruct (mget G k) as [cur|] eqn:Hg.
    + pose proof (mget_Some_in _ _ _ Hg) as Hcur.
      destruct (Hfin (k, cur)) as [Hcne [z Hz]].
      { apply elem_of_app. left. by apply Hv. }
      destruct (String.eqb cur "" || js_lt (date_of v) (date_of cur)) eqn:Hc.
      * apply (mset_elem_nodup _ _ _ _ Hnd) in HgG as [[HgG Hne]| ->].
        -- apply elem_of_app in Hc' as [Hc'|Hc'%list_elem_of_singleton];
             [by apply (Hmin g c' x y)|].
           injection Hc' as Hgk _. done.
        -- cbn in Hx. apply elem_of_app in Hc' as [Hc'|Hc'%list_elem_of_singleton].
           ++ assert (Hzy : (z <= y)%Q) by (apply (Hmin (k, cur) c' z y); done).
              apply orb_true_iff in Hc as [Hc|Hc]; [by apply String.eqb_eq in Hc|].
              cbn in Hz. rewrite Hx, Hz in Hc. cbn in Hc. apply negb_true_iff in Hc.
              assert (¬ (z <= x)%Q) as Hnz.
              { intros Hzx. apply Qle_bool_iff in Hzx. congruence. }
              apply Qnot_le_lt in Hnz. lra.
           ++ injection Hc' as ->. rewrite Hx in Hy. injection Hy as ->. apply Qle_refl.
      * apply elem_of_app in Hc' as [Hc'|Hc'%list_elem_of_singleton];
          [by apply (Hmin g c' x y)|].
        injection Hc' as Hgk ->. destruct g as [gk gv]. cbn in *. subst gk.
        assert (gv = cur) as -> by (apply (keys_functional G k); done).
        apply orb_false_iff in Hc as [_ Hc]. rewrite Hx, Hy in Hc.
        cbn in Hc. apply negb_false_iff, Qle_bool_iff in Hc. done.
    + pose proof Hg as Hg0. apply mget_None in Hg.
      assert (g ∈ G → g.1 ≠ k) as Hgk.
      { intros HgG' <-. apply Hg. apply list_elem_of_fmap. by exists g. }
      destruct (existsb (String.eqb k) proto_keys) eqn:Hp.
      * apply elem_of_app in Hc' as [Hc'|Hc'%list_elem_of_singleton];
          [by apply (Hmin g c' x y)|].
        injection Hc' as Hk' _. by apply Hgk in HgG.
      * rewrite (mset_absent _ _ _ Hg0) in HgG.
        apply elem_of_app in HgG as [HgG| ->%list_elem_of_singleton].
        -- apply elem_of_app in Hc' as [Hc'|Hc'%list_elem_of_singleton];
             [by apply (Hmin g c' x y)|].
           injection Hc' as Hk' _. by apply Hgk in HgG.
        -- cbn in Hx, Hc'. apply elem_of_app in Hc' as [Hc'|Hc'%list_elem_of_singleton].
           ++ exfalso. apply Hg, Hk. split.
              ** apply list_elem_of_fmap. by exists (k, c').
              ** intros Hin. apply existsb_eqb_elem in Hin. congruence.
           ++ injection Hc' as ->. rewrite Hx in Hy. injection Hy as ->. apply Qle_refl.
Qed.

Lemma filter_split_perm {A} (f : A → bool) l :
  List.filter f l ++ List.filter (λ x, negb (f x)) l ≡ₚ l.
Proof.
  induction l as [|x l IH]; simpl; [done|].
  destruct (f x); simpl; [by rewrite IH|].
  by rewrite <- Permutation_middle, IH.
Qed.

Lemma object_entries_perm kvs : object_entries kvs ≡ₚ kvs.
Proof.
  unfold object_entries. rewrite merge_sort_Permutation. apply filter_split_perm.
Qed.

Global Instance date_desc_total date_of : Total (date_desc date_of).
Proof.
  intros a b. unfold date_desc, js_gt, js_sub.
  destruct (date_of a.2) as [| | |x], (date_of b.2) as [| | |y];
    cbv beta iota delta [js_add js_neg js_lt]; try (by left); try (by right).
  destruct (Qle_bool (y + - x) 0) eqn:E1; [by left|].
  destruct (Qle_bool (x + - y) 0) eqn:E2; [by right|].
  exfalso.
  assert (¬ (y + - x <= 0)%Q) as H1 by (intros H; apply Qle_bool_iff in H; congruence).
  assert (¬ (x + - y <= 0)%Q) as H2 by (intros H; apply Qle_bool_iff in H; congruence).
  apply Qnot_le_lt in H1, H2. lra.
Qed.

Lemma older_reply date_of iso now_ms hours sel items calls :
  older_presentations date_of iso now_ms hours sel = (Reply 200 (JArr items), calls) →
  ∃ t data, calls = [CSelectPresentationsBefore (iso t)] ∧ sel (iso t) = inr data ∧
    items = map older_json (stable_sort (date_desc date_of) (object_entries (older_groups date_of data))).
Proof.
  unfold older_presentations. destruct (time_clip _) as [t|]; [|discriminate].
  destruct (sel (iso t)) as [msg|data] eqn:E; intros H; inversion H; subst; eauto.
Qed.

(** A list answered by GET /presentations/older names each presentation
    of the selected slides once, except those named like a property of
    [Object.prototype] (["constructor"], ["toString"], ...), which it
    never lists; each entry pairs a name with the date of one of its
    slides. *)
Theorem older_lists_each_name_once date_of iso now_ms hours sel items calls :
  older_presentations date_of iso now_ms hours sel = (Reply 200 (JArr items), calls) →
  ∃ t data L,
    calls = [CSelectPresentationsBefore (iso t)] ∧ sel (iso t) = inr data ∧
    items = map older_json L ∧ NoDup (map fst L) ∧
    (∀ n, n ∈ map fst L ↔ n ∈ map fst data ∧ n ∉ proto_keys) ∧
    (∀ g, g ∈ L → g ∈ data).
Proof.
  intros H. apply older_reply in H as (t & data & -> & Hsel & ->).
  destruct (older_groups_inv date_of data) as (Hnd & Hk & Hv & _).
  pose proof (Permutation_trans (stable_sort_Permutation (date_desc date_of) _)
                (object_entries_perm (older_groups date_of data))) as HP.
  eexists t, data, _. split_and!; [done|done|done|..].
  - by rewrite HP.
  - intros n. by rewrite HP.
  - intros g. rewrite HP. apply Hv.
Qed.

Lemma older_lists_each_name_once_witness :
  ∃ (t : Z) data L,
    [CSelectPresentationsBefore "2025-01-03"] = [CSelectPresentationsBefore "2025-01-03"] ∧
    (inr sample_older_slides : string + list (string * string)) = inr data ∧
    map older_json [("Youth", "2025-01-02"); ("Sunday", "2025-01-01")] = map older_json L ∧
    NoDup (map fst L) ∧
    (∀ n, n ∈ map fst L ↔ n ∈ map fst data ∧ n ∉ proto_keys) ∧
    (∀ g, g ∈ L → g ∈ data).
Proof.
  apply (older_lists_each_name_once sample_date (λ _, "2025-01-03") 1700000000000 None
           (λ _, inr sample_older_slides)).
  vm_compute. reflexivity.
Defined.

(** When every selected slide has a non-empty, valid creation date, the
    date GET /presentations/older gives for a presentation is the
    earliest of its slides: the listed pair is one of the selected slides,
    and its date is at most the date of every slide of that name. The list
    is sorted from the most recent of these dates to the oldest. *)
Theorem older_earliest_dates_newest_first date_of iso now_ms hours sel items calls :
  (∀ s data r, sel s = inr data → r ∈ data → r.2 ≠ "" ∧ ∃ q, date_of r.2 = JFin q) →
  older_presentations date_of iso now_ms hours sel = (Reply 200 (JArr items), calls) →
  ∃ t data L,
    calls = [CSelectPresentationsBefore (iso t)] ∧ sel (iso t) = inr data ∧
    items = map older_json L ∧
    (∀ g, g ∈ L → g ∈ data) ∧
    (∀ g c' x y, g ∈ L → (g.1, c') ∈ data →
       date_of g.2 = JFin x → date_of c' = JFin y → (x <= y)%Q) ∧
    Sorted (λ a b, ∀ x y, date_of a.2 = JFin x → date_of b.2 = JFin y → (y <= x)%Q) L.
Proof.
  intros Hfin H. apply older_reply in H as (t & data & -> & Hsel & ->).
  destruct (older_groups_inv date_of data) as (_ & _ & Hv & Hmin).
  pose proof (Permutation_trans (stable_sort_Permutation (date_desc date_of) _)
                (object_entries_perm (older_groups date_of data))) as HP.
  eexists t, data, _. split_and!; [done|done|done|..].
  - intros g. rewrite HP. apply Hv.
  - intros g c' x y Hg Hc' Hx Hy. rewrite HP in Hg.
    exact (Hmin (λ r Hr, Hfin _ _ r Hsel Hr) g c' x y Hg Hc' Hx Hy).
  - rewrite <- (list_fmap_id (stable_sort _ _)).
    apply (Sorted_fmap _ (date_desc date_of)); [|apply Sorted_stable_sort].
    intros a b Hab x y Hx Hy. unfold date_desc, js_gt, js_sub in Hab.
    cbn in Hx, Hy. rewrite Hx, Hy in Hab. cbn in Hab.
    apply negb_false_iff, Qle_bool_iff in Hab. lra.
  Unshelve. apply date_desc_total.
Qed.

Lemma older_earliest_dates_newest_first_witness :
  ∃ (t : Z) data L,
    [CSelectPresentationsBefore "2025-01-03"] = [CSelectPresentationsBefore "2025-01-03"] ∧
    (inr sample_older_slides : string + list (string * string)) = inr data ∧
    map older_json [("Youth", "2025-01-02"); ("Sunday", "2025-01-01")] = map older_json L ∧
    (∀ g, g ∈ L → g ∈ data) ∧
    (∀ g c' x y, g ∈ L → (g.1, c') ∈ data →
       sample_date g.2 = JFin x → sample_date c' = JFin y → (x <= y)%Q) ∧
    Sorted (λ a b, ∀ x y, sample_date a.2 = JFin x → sample_date b.2 = JFin y → (y <= x)%Q) L.
Proof.
  apply (older_earliest_dates_newest_first sample_date (λ _, "2025-01-03") 1700000000000 None
           (λ _, inr sample_older_slides)).
  - intros s data r [= <-] Hr.
    repeat (apply elem_of_cons in Hr as [->|Hr]; [split; [discriminate|eexists; reflexivity]|]).
    by apply not_elem_of_nil in Hr.
  - vm_compute. reflexivity.
Defined.
